(** * DocuMind chat route and client history: a shallow embedding

    The development follows the repository's server route
    (the [POST] handler with [getMimeType], [checkFileSize] and
    [buildGoogleGenAIPrompt]) and the storage part of the client
    component [ChatInterface] together with the sidebar's [loadHistory].

    Conventions of the embedding.
    - A JavaScript string is a [string]; its [length] is read as an
      integer ([js_length]).
    - A JavaScript number is a rational ([Q]) where the source computes
      with fractions.  Every number the route computes is an integer
      times a power of two far below 2^53, so the IEEE doubles of the
      source and the rationals used here agree exactly.
    - A function of the source that may throw returns [exn + A].
    - The body of the request is taken after [req.json()]: [messages] is
      an array of [{id, role, content}] objects, and [files] is described
      by what [if (files)] and [JSON.parse(files)] make of it. *)

From Stdlib Require Import ZArith QArith Qround Lia Sorting.Sorted.
From Stdlib Require Import Strings.String Strings.Ascii Strings.Byte.
From stdpp Require Import base option list strings gmap pretty.

Local Open Scope string_scope.
Local Open Scope list_scope.

(** ** Strings as the source uses them *)

Module JsString.

Definition js_length (s : string) : Z := Z.of_nat (String.length s).

(** [s.startsWith(p)] *)
Definition startsWith (s p : string) : bool := String.prefix p s.

(** [s.includes(sub)] *)
Fixpoint includes (s sub : string) : bool :=
  String.prefix sub s ||
  match s with
  | EmptyString => false
  | String _ s' => includes s' sub
  end.

Fixpoint drop_chars (n : nat) (s : string) : string :=
  match n, s with
  | O, _ => s
  | S n', String _ s' => drop_chars n' s'
  | S _, EmptyString => EmptyString
  end.

(** The text after the first occurrence of [sep], when there is one. *)
Fixpoint after_first (sep s : string) : option string :=
  if String.prefix sep s then Some (drop_chars (String.length sep) s)
  else match s with
       | EmptyString => None
       | String _ s' => after_first sep s'
       end.

(** The text before the first occurrence of [sep] (all of [s] when
    there is none). *)
Fixpoint before_first (sep s : string) : string :=
  if String.prefix sep s then EmptyString
  else match s with
       | EmptyString => EmptyString
       | String c s' => String c (before_first sep s')
       end.

(** [s.split(sep)[1]] for a non-empty [sep]: the piece between the
    first and the second occurrence of [sep]; [None] is [undefined]. *)
Definition split_1 (s sep : string) : option string :=
  before_first sep <$> after_first sep s.

Definition chop_prefix (p s : string) : option string :=
  if String.prefix p s then Some (drop_chars (String.length p) s) else None.

(** The longest run matched by [[^;]*] is skipped. *)
Fixpoint skip_non_semicolon (s : string) : string :=
  match s with
  | EmptyString => EmptyString
  | String c s' => if Ascii.eqb c ";" then s else skip_non_semicolon s'
  end.

(** [s.replace(/^data:[^;]+;base64,/, "")].  The class [[^;]+] can only
    stop in front of the first [;], so the match, if any, is unique. *)
Definition strip_data_url_header (s : string) : string :=
  match chop_prefix "data:" s with
  | Some rest =>
      match rest with
      | EmptyString => s
      | String c _ =>
          if Ascii.eqb c ";" then s
          else match chop_prefix ";base64," (skip_non_semicolon rest) with
               | Some payload => payload
               | None => s
               end
      end
  | None => s
  end.

(** [s] written [2^k] times. *)
Fixpoint pow2_copies (k : nat) (s : string) : string :=
  match k with
  | O => s
  | S k' => pow2_copies k' (s +:+ s)
  end.

(** [x.toFixed(1)] for a non-negative [x]: the nearest multiple of one
    tenth, the larger one on a tie. *)
Definition toFixed1 (x : Q) : string :=
  let n := Qfloor (x * 10 + 0.5)%Q in
  pretty (n / 10)%Z +:+ "." +:+ pretty (n mod 10)%Z.

End JsString.
Import JsString.

(** ** Thrown values and the error monad *)

Inductive exn : Type :=
| Error (message : string)      (* [new Error(message)] *)
| TypeError                     (* raised by the engine *)
| SyntaxError                   (* raised by [JSON.parse] *)
| UpstreamError.                (* rejection of the provider's SDK *)

Definition throws (A : Type) : Type := (exn + A)%type.

#[global] Instance throws_ret : MRet throws := fun _ a => inr a.

#[global] Instance throws_bind : MBind throws := fun _ _ k m =>
  match m with
  | inl e => inl e
  | inr a => k a
  end.

Definition throw {A} (e : exn) : throws A := inl e.

(** ** Parsed JSON *)

#[warnings="-register-all"]
Inductive json : Type :=
| JNull
| JBool (b : bool)
| JNum (n : Z)
| JStr (s : string)
| JArr (items : list json)
| JObj (fields : list (string * json)).

(** [lookup_field k fields]: the value of an own property. *)
Fixpoint lookup_field (k : string) (fields : list (string * json)) : option json :=
  match fields with
  | [] => None
  | (k', v) :: rest => if String.eqb k k' then Some v else lookup_field k rest
  end.

(** [v.k] for a property [k] that is neither [length] nor a method:
    reading a property of [null] throws, a primitive or an array has no
    such property ([None] is [undefined]). *)
Definition prop (v : json) (k : string) : throws (option json) :=
  match v with
  | JNull => inl TypeError
  | JObj fields => inr (lookup_field k fields)
  | _ => inr None
  end.

(** ** getMimeType *)

Definition getMimeType (fileType base64 : string) : string :=
  if startsWith fileType "image/" then
    (if String.eqb fileType "image/png" then "image/png" else "image/jpeg")
  else if String.eqb fileType "application/pdf" then "application/pdf"
  else if startsWith fileType "video/" then fileType
  else if includes base64 "data:image/png" then "image/png"
  else if includes base64 "data:image/jpeg" || includes base64 "data:image/jpg"
       then "image/jpeg"
  else if includes base64 "data:application/pdf" then "application/pdf"
  else "image/jpeg".

(** ** checkFileSize *)

Record size_check : Type := SizeCheck { valid : bool; error : option string }.

Definition base64Length (base64 : string) : Z :=
  js_length (strip_data_url_header base64).

Definition originalSizeBytes (base64 : string) : Z :=
  Qfloor (inject_Z (base64Length base64) * 0.75)%Q.

Definition originalSizeMB (base64 : string) : Q :=
  (inject_Z (originalSizeBytes base64) / inject_Z (1024 * 1024))%Q.

Definition video_error : string :=
  "Videos are not currently supported. Please upload images or PDFs.".

Definition too_large_error (sizeMB : Q) : string :=
  "File too large (" +:+ toFixed1 sizeMB +:+ "MB). Maximum size is 4.5MB.".

Definition checkFileSize (base64 fileType : string) : size_check :=
  if startsWith fileType "video/" then
    {| valid := false; error := Some video_error |}
  else if negb (Qle_bool (originalSizeMB base64) 4.5) then
    {| valid := false; error := Some (too_large_error (originalSizeMB base64)) |}
  else {| valid := true; error := None |}.

(** ** Messages of the conversation *)

(** [content] of a message as the route distinguishes it: a string, an
    array of parts, or nothing.  A text part carries whatever value was
    put under [text]. *)
#[warnings="-register-all"]
Inductive Content : Type :=
| CUndefined
| CString (s : string)
| CArray (items : list Part)
with Part : Type :=
| TextPart (text : Content)                               (* [type: "text"] *)
| ImagePart (image : string) (fileType : option string)   (* [type: "image"] *)
| OtherPart.                                              (* any other [type] *)

Record Message : Type := { id : string; role : string; content : Content }.

(** JavaScript truthiness of a content value. *)
Definition truthy (c : Content) : bool :=
  match c with
  | CUndefined => false
  | CString s => negb (String.eqb s "")
  | CArray _ => true
  end.

(** The two fields of an attachment the route reads. *)
Record AttachedFile : Type := { base64 : string; type : string }.

(** ** The provider's format *)

Module Gemini.

Inductive Part : Type :=
| Text (text : Content)
| InlineData (mimeType data : string).

Record Content : Type := { role : string; parts : list Part }.

(** What [generateContentStream] hands back: the text of each chunk of
    the async iterator, and whether the iterator throws after them. *)
Record Stream : Type := { increments : list string; throws_at_end : bool }.

End Gemini.

(** ** buildGoogleGenAIPrompt *)

(** [part.image.includes("base64,") ? part.image.split("base64,")[1] : part.image] *)
Definition base64Data (image : string) : string :=
  if includes image "base64," then default image (split_1 image "base64,")
  else image.

Definition inlinePart (image : string) (fileType : option string) : Gemini.Part :=
  let mimeType := getMimeType (default "" fileType) image in
  Gemini.InlineData mimeType (base64Data image).

Definition convertPart (part : Part) : list Gemini.Part :=
  match part with
  | TextPart text => [Gemini.Text text]
  | ImagePart image fileType => [inlinePart image fileType]
  | OtherPart => []
  end.

Definition userParts (c : Content) : list Gemini.Part :=
  match c with
  | CString s => [Gemini.Text (CString s)]
  | CArray items => items ≫= convertPart
  | CUndefined => []
  end.

(** [message.content || ""] *)
Definition contentOrEmpty (c : Content) : Content :=
  if truthy c then c else CString "".

Definition convertMessage (message : Message) : list Gemini.Content :=
  if String.eqb (role message) "user" then
    [ {| Gemini.role := "user"; Gemini.parts := userParts (content message) |} ]
  else if String.eqb (role message) "assistant" then
    [ {| Gemini.role := "model";
         Gemini.parts := [Gemini.Text (contentOrEmpty (content message))] |} ]
  else [].

Fixpoint buildGoogleGenAIPrompt (messages : list Message) : list Gemini.Content :=
  match messages with
  | [] => []
  | message :: rest => convertMessage message ++ buildGoogleGenAIPrompt rest
  end.

(** ** The attachment step of POST *)

(** The value [files] of the body, by what [if (files)] and
    [JSON.parse(files)] make of it. *)
Inductive FilesField : Type :=
| FilesFalsy                          (* absent, [null], the empty string *)
| FilesUnparseable                    (* [JSON.parse] throws *)
| FilesParsed (parsedFiles : json).   (* [JSON.parse] returns *)

Record Request : Type := { messages : list Message; files : FilesField }.

(** The characters of a string, as [for ... of] yields them. *)
Fixpoint characters (s : string) : list string :=
  match s with
  | EmptyString => []
  | String c s' => String c EmptyString :: characters s'
  end.

(** What [for (const file of parsedFiles)] iterates over, after
    [parsedFiles.length] was read for the log line. *)
Definition iterate (parsedFiles : json) : throws (list json) :=
  match parsedFiles with
  | JNull => throw TypeError
  | JArr items => mret items
  | JStr s => mret (JStr <$> characters s)
  | JBool _ | JNum _ | JObj _ => throw TypeError
  end.

(** One turn of the validation loop.  [checkFileSize] calls [replace] on
    its first argument and [startsWith] on its second, so both have to
    be strings; a file that passes is returned with these two fields. *)
Definition checkFile (file : json) : throws AttachedFile :=
  b ← prop file "base64";
  t ← prop file "type";
  match b, t with
  | Some (JStr b), Some (JStr t) =>
      let sizeCheck := checkFileSize b t in
      if valid sizeCheck then mret {| base64 := b; type := t |}
      else throw (Error (default "" (error sizeCheck)))
  | _, _ => throw TypeError
  end.

Fixpoint checkFiles (items : list json) : throws (list AttachedFile) :=
  match items with
  | [] => mret []
  | file :: rest =>
      f ← checkFile file;
      fs ← checkFiles rest;
      mret (f :: fs)
  end.

(** [arr.findLastIndex(p)]; [None] is [-1]. *)
Fixpoint findLastIndex {A} (p : A -> bool) (l : list A) : option nat :=
  match l with
  | [] => None
  | x :: rest =>
      match findLastIndex p rest with
      | Some i => Some (S i)
      | None => if p x then Some O else None
      end
  end.

Definition isUser (m : Message) : bool := String.eqb (role m) "user".

Definition fileParts (parsedFiles : list AttachedFile) : list Part :=
  (fun file => ImagePart (base64 file) (Some (type file))) <$> parsedFiles.

Definition withFiles (userMessage : Message) (parsedFiles : list AttachedFile) : Message :=
  {| id := id userMessage;
     role := role userMessage;
     content :=
       CArray (if truthy (content userMessage)
               then TextPart (content userMessage) :: fileParts parsedFiles
               else fileParts parsedFiles) |}.

Definition attachFiles (enhancedMessages : list Message)
    (parsedFiles : list AttachedFile) : list Message :=
  match findLastIndex isUser enhancedMessages with
  | Some lastUserMessageIndex =>
      match parsedFiles, enhancedMessages !! lastUserMessageIndex with
      | _ :: _, Some userMessage =>
          <[lastUserMessageIndex := withFiles userMessage parsedFiles]> enhancedMessages
      | _, _ => enhancedMessages
      end
  | None => enhancedMessages
  end.

(** The block guarded by [if (files)]: the enhanced messages, or the
    value caught by the inner [catch]. *)
Definition enhance (req : Request) : throws (list Message) :=
  match files req with
  | FilesFalsy => mret (messages req)
  | FilesUnparseable => throw SyntaxError
  | FilesParsed parsedFiles =>
      items ← iterate parsedFiles;
      checked ← checkFiles items;
      mret (attachFiles (messages req) checked)
  end.

(** ** The streaming relay *)

(** The calls [start] makes on the stream's controller. *)
Inductive ControllerCall : Type :=
| Enqueue (chunk : list byte)
| ErrorCall (e : exn)
| Close.

(** [encoder.encode(text)] *)
Definition encode (text : string) : list byte := list_byte_of_string text.

Fixpoint relay (texts : list string) : list ControllerCall :=
  match texts with
  | [] => []
  | text :: rest =>
      (if String.eqb text "" then [] else [Enqueue (encode text)]) ++ relay rest
  end.

Definition start (geminiStream : Gemini.Stream) : list ControllerCall :=
  relay (Gemini.increments geminiStream)
  ++ (if Gemini.throws_at_end geminiStream then [ErrorCall UpstreamError] else [])
  ++ [Close].

(** ** POST *)

Inductive MessageText : Type :=
| Literal (s : string)
| EngineText (e : exn).     (* the wording the engine or the SDK chose *)

(** [e.message] *)
Definition message (e : exn) : MessageText :=
  match e with
  | Error m => Literal m
  | _ => EngineText e
  end.

Record ErrorBody : Type := { body_error : MessageText; body_details : MessageText }.

Inductive Response : Type :=
| JsonResponse (status : Z) (body : ErrorBody)
| StreamResponse (calls : list ControllerCall).   (* 200, text/plain *)

(** The response together with the payloads handed to the provider. *)
Record Outcome : Type :=
  { response : Response; upstream_calls : list (list Gemini.Content) }.

Definition file_error_details : string :=
  "Please check the file size and type. Max size is 4.5MB for PDFs and images.".

Definition rejected (status : Z) (error details : MessageText)
    (calls : list (list Gemini.Content)) : Outcome :=
  {| response := JsonResponse status {| body_error := error; body_details := details |};
     upstream_calls := calls |}.

Section Handler.

(** [process.env.GEMINI_API_KEY] *)
Variable GEMINI_API_KEY : option string.

(** [model.generateContentStream({contents, ...})], awaited. *)
Variable generateContentStream : list Gemini.Content -> throws Gemini.Stream.

Definition apiKeySet : bool :=
  match GEMINI_API_KEY with
  | Some k => negb (String.eqb k "")
  | None => false
  end.

Definition POST (req : Request) : Outcome :=
  match enhance req with
  | inl e => rejected 400 (message e) (Literal file_error_details) []
  | inr enhancedMessages =>
      if apiKeySet then
        let contents := buildGoogleGenAIPrompt enhancedMessages in
        match generateContentStream contents with
        | inl e =>
            rejected 500 (Literal "Failed to process chat request") (message e)
                     [contents]
        | inr geminiStream =>
            {| response := StreamResponse (start geminiStream);
               upstream_calls := [contents] |}
        end
      else
        rejected 500 (Literal "Failed to process chat request")
                 (Literal "GEMINI_API_KEY is not set") []
  end.

End Handler.

(** ** The response stream and its reader *)

(** The platform's [ReadableStream] with a default controller, as far as
    [start] and a reader that only calls [read()] exercise it. *)
Module ReadableStream.

Inductive State : Type := Readable | Closed | Errored.

Record Stream : Type :=
  { queue : list (list byte); state : State; closeRequested : bool }.

Definition fresh : Stream :=
  {| queue := []; state := Readable; closeRequested := false |}.

Definition canCloseOrEnqueue (s : Stream) : bool :=
  match state s with
  | Readable => negb (closeRequested s)
  | _ => false
  end.

(** A controller method applied to the stream.  [close()] on a stream
    that cannot be closed throws inside [finally], which only rejects
    the promise of [start]: the stream is left as it is. *)
Definition call (c : ControllerCall) (s : Stream) : Stream :=
  match c with
  | Enqueue chunk =>
      if canCloseOrEnqueue s
      then {| queue := queue s ++ [chunk]; state := state s;
              closeRequested := closeRequested s |}
      else s
  | ErrorCall _ =>
      match state s with
      | Readable => {| queue := []; state := Errored;
                       closeRequested := closeRequested s |}
      | _ => s
      end
  | Close =>
      if canCloseOrEnqueue s
      then match queue s with
           | [] => {| queue := []; state := Closed; closeRequested := true |}
           | _ :: _ => {| queue := queue s; state := Readable;
                          closeRequested := true |}
           end
      else s
  end.

(** How a sequence of reads ends. *)
Inductive Ending : Type := Done | Failed.

(** The producer's remaining calls, the stream, the chunks the reader
    has received and how its reading ended, if it has. *)
Record Config : Type :=
  { pending : list ControllerCall;
    stream : Stream;
    observed : list (list byte);
    ended : option Ending }.

Definition initial (calls : list ControllerCall) : Config :=
  {| pending := calls; stream := fresh; observed := []; ended := None |}.

(** The producer and the reader take turns in any order; a read on an
    empty readable stream waits. *)
Inductive step : Config -> Config -> Prop :=
| step_call c cs s obs e :
    step {| pending := c :: cs; stream := s; observed := obs; ended := e |}
         {| pending := cs; stream := call c s; observed := obs; ended := e |}
| step_read_chunk cs chunk q st cr obs :
    step {| pending := cs;
            stream := {| queue := chunk :: q; state := st; closeRequested := cr |};
            observed := obs; ended := None |}
         {| pending := cs;
            stream := {| queue := q;
                         state := match q with
                                  | [] => if cr then Closed else st
                                  | _ :: _ => st
                                  end;
                         closeRequested := cr |};
            observed := obs ++ [chunk]; ended := None |}
| step_read_done cs cr obs :
    step {| pending := cs;
            stream := {| queue := []; state := Closed; closeRequested := cr |};
            observed := obs; ended := None |}
         {| pending := cs;
            stream := {| queue := []; state := Closed; closeRequested := cr |};
            observed := obs; ended := Some Done |}
| step_read_failed cs cr obs :
    step {| pending := cs;
            stream := {| queue := []; state := Errored; closeRequested := cr |};
            observed := obs; ended := None |}
         {| pending := cs;
            stream := {| queue := []; state := Errored; closeRequested := cr |};
            observed := obs; ended := Some Failed |}.

Definition reachable (calls : list ControllerCall) (c : Config) : Prop :=
  rtc step (initial calls) c.

Definition finished (c : Config) : Prop := forall c', ~ step c c'.

End ReadableStream.

(** ** The client's stored history *)

Module Client.

Definition STORAGE_KEY : string := "documind_chats".
Definition CURRENT_CHAT_KEY : string := "documind_current_chat".

Record ChatMessage : Type :=
  { msg_id : string; msg_role : string; msg_content : string }.

Record ChatHistory : Type :=
  { id : string; title : string; timestamp : Z; messages : list ChatMessage }.

(** The part of the component's state the history code touches. *)
Record State : Type :=
  { st_messages : list ChatMessage;
    currentChatId : option string;
    chatHistory : list ChatHistory;
    isMobileMenuOpen : bool }.

Definition initialState : State :=
  {| st_messages := []; currentChatId := None; chatHistory := [];
     isMobileMenuOpen := false |}.

(** [arr.sort((a, b) => b.timestamp - a.timestamp)]: stable, most
    recent first. *)
Fixpoint insertByRecency (x : ChatHistory) (l : list ChatHistory) : list ChatHistory :=
  match l with
  | [] => [x]
  | y :: rest =>
      if (timestamp y <=? timestamp x)%Z then x :: l
      else y :: insertByRecency x rest
  end.

Definition sortByRecency (l : list ChatHistory) : list ChatHistory :=
  foldr insertByRecency [] l.

Definition nonEmpty (s : string) : bool := negb (String.eqb s "").

(** [localStorage.getItem(k)] read as a condition: [null] and the
    empty string are falsy. *)
Definition getTruthy (ls : gmap string string) (k : string) : option string :=
  match ls !! k with
  | Some v => if nonEmpty v then Some v else None
  | None => None
  end.

Section Effects.

(** [JSON.parse] at the type of the stored history; [None] when it
    throws. *)
Variable JSON_parse : string -> option (list ChatHistory).
Variable JSON_stringify : list ChatHistory -> string.

(** The effect that runs on mount. *)
Definition loadEffect (ls : gmap string string) (st : State) : State :=
  match getTruthy ls STORAGE_KEY with
  | Some savedChats =>
      match JSON_parse savedChats with
      | Some history =>
          let sorted := sortByRecency history in
          let found :=
            match getTruthy ls CURRENT_CHAT_KEY, sorted with
            | Some chatId, _ :: _ =>
                List.find (fun c => String.eqb (id c) chatId) sorted
            | _, _ => None
            end in
          match found with
          | Some currentChat =>
              {| st_messages := messages currentChat;
                 currentChatId := Some (id currentChat);
                 chatHistory := sorted;
                 isMobileMenuOpen := isMobileMenuOpen st |}
          | None =>
              {| st_messages := st_messages st;
                 currentChatId := currentChatId st;
                 chatHistory := sorted;
                 isMobileMenuOpen := isMobileMenuOpen st |}
          end
      | None => st
      end
  | None => st
  end.

(** [content.slice(0, 40) + (content.length > 40 ? "..." : "") || "New Chat"] *)
Definition titleOf (content : string) : string :=
  let t := String.substring 0 40 content
           +:+ (if (40 <? String.length content)%nat then "..." else "") in
  if nonEmpty t then t else "New Chat".

(** The auto-save effect; both readings of the clock return [now]. *)
Definition saveEffect (now : Z) (ls : gmap string string) (st : State)
    : State * gmap string string :=
  match st_messages st with
  | [] => (st, ls)
  | _ :: _ =>
      let chatId :=
        match currentChatId st with
        | Some c => if nonEmpty c then c else pretty now
        | None => pretty now
        end in
      let content :=
        match List.find (fun m => String.eqb (msg_role m) "user") (st_messages st) with
        | Some m => msg_content m
        | None => ""
        end in
      let updatedChat :=
        {| id := chatId; title := titleOf content; timestamp := now;
           messages := st_messages st |} in
      let filtered :=
        List.filter (fun c => negb (String.eqb (id c) chatId)) (chatHistory st) in
      let newHistory := sortByRecency (updatedChat :: filtered) in
      ({| st_messages := st_messages st;
          currentChatId := Some chatId;
          chatHistory := newHistory;
          isMobileMenuOpen := isMobileMenuOpen st |},
       <[CURRENT_CHAT_KEY := chatId]>
         (<[STORAGE_KEY := JSON_stringify newHistory]> ls))
  end.

(** [clearHistory]; [confirmed] is the answer to [confirm(...)]. *)
Definition clearHistory (confirmed : bool) (ls : gmap string string) (st : State)
    : State * gmap string string :=
  if confirmed then
    ({| st_messages := []; currentChatId := None; chatHistory := [];
        isMobileMenuOpen := false |},
     delete CURRENT_CHAT_KEY (delete STORAGE_KEY ls))
  else (st, ls).

(** A reload of the page: a fresh component runs its mount effect and
    then the auto-save effect on what was loaded. *)
Definition reload (now : Z) (ls : gmap string string) : State * gmap string string :=
  saveEffect now ls (loadEffect ls initialState).

(** The sidebar's [loadHistory], given its current list.  The two
    revisions of the sidebar differ when nothing is stored or the
    stored text does not parse: the first empties the list, the
    second keeps it. *)
Definition loadHistory (emptiesList : bool) (ls : gmap string string)
    (history : list ChatHistory) : list ChatHistory :=
  match getTruthy ls STORAGE_KEY with
  | Some savedChats =>
      match JSON_parse savedChats with
      | Some parsed => take 5 (sortByRecency parsed)
      | None => if emptiesList then [] else history
      end
  | None => if emptiesList then [] else history
  end.

End Effects.

(** [startNewChat], on the part of the state kept in [State]. *)
Definition startNewChat (ls : gmap string string) (st : State)
    : State * gmap string string :=
  ({| st_messages := []; currentChatId := None; chatHistory := chatHistory st;
      isMobileMenuOpen := false |},
   delete CURRENT_CHAT_KEY ls).

(** [loadChat(chatId)] *)
Definition loadChat (chatId : string) (ls : gmap string string) (st : State)
    : State * gmap string string :=
  match List.find (fun c => String.eqb (id c) chatId) (chatHistory st) with
  | Some chat =>
      ({| st_messages := messages chat; currentChatId := Some (id chat);
          chatHistory := chatHistory st; isMobileMenuOpen := false |},
       <[CURRENT_CHAT_KEY := chatId]> ls)
  | None => (st, ls)
  end.

Section SidebarView.

(** [new Date(timestamp).toLocaleDateString()] *)
Variable toLocaleDateString : Z -> string.

(** The sidebar's [formatTimestamp], with [Date.now()] returning [now]. *)
Definition formatTimestamp (now timestamp : Z) : string :=
  let diff := (now - timestamp)%Z in
  let minutes := (diff / 60000)%Z in
  let hours := (diff / 3600000)%Z in
  let days := (diff / 86400000)%Z in
  if (minutes <? 1)%Z then "Just now"
  else if (minutes <? 60)%Z then pretty minutes +:+ "m ago"
  else if (hours <? 24)%Z then pretty hours +:+ "h ago"
  else if (days <? 7)%Z then pretty days +:+ "d ago"
  else toLocaleDateString timestamp.

End SidebarView.

(** *** Attaching files and submitting a turn *)

(** The fields of a browser [File] that [processFiles] reads. *)
Record File : Type := { name : string; type : string; size : Z }.

Record AttachedFile : Type :=
  { file_id : string; file_name : string; file_type : string; file_base64 : string }.

Section ProcessFiles.

(** [fileToBase64(file)]; [None] when the promise rejects. *)
Variable fileToBase64 : File -> option string.

(** The id made of [Date.now()] and [Math.random()]. *)
Variable freshId : File -> string.

Definition maxSize : Z := 10 * 1024 * 1024.

(** One turn of the loop of [processFiles]: what is pushed on
    [newFiles]. *)
Definition processFile (file : File) : list AttachedFile :=
  if (maxSize <? size file)%Z then []
  else match fileToBase64 file with
       | Some base64 =>
           [ {| file_id := freshId file; file_name := name file;
                file_type := type file; file_base64 := base64 |} ]
       | None => []
       end.

(** [processFiles(files)] on the list of attached files. *)
Definition processFiles (files : list File) (attachedFiles : list AttachedFile)
    : list AttachedFile :=
  match files with
  | [] => attachedFiles
  | _ :: _ => attachedFiles ++ (files ≫= processFile)
  end.

End ProcessFiles.

(** [removeFile(id)] *)
Definition removeFile (fileId : string) (attachedFiles : list AttachedFile)
    : list AttachedFile :=
  List.filter (fun f => negb (String.eqb (file_id f) fileId)) attachedFiles.

(** What [handleSubmit] gets from [fetch] and from reading the body. *)
Inductive Fetched : Type :=
| NotOk (status : Z)                     (* [response.ok] is false *)
| ReadAll (chunks : list (list byte))    (* the reads succeed up to [done] *)
| Threw (chunks : list (list byte)) (message : string).
    (* [fetch] or a read rejects with an [Error] that has this message
       and no [cause.data]; [chunks] were read before *)

Definition defaultErrorText : string := "抱歉，发生了错误。请稍后再试。".

(** [decoder.decode(value, { stream: true })] *)
Definition decode (value : list byte) : string := string_of_list_byte value.

(** [fullContent] after the reading loop. *)
Definition fullContent (chunks : list (list byte)) : string :=
  foldl (fun acc value => acc +:+ decode value) "" chunks.

Definition newMessage (prefix : string) (time : Z) (role content : string)
    : ChatMessage :=
  {| msg_id := prefix +:+ pretty time; msg_role := role; msg_content := content |}.

(** What the turn leaves behind: the messages, the input, the attached
    files and [streamingContent], the text shown while a reply comes
    in. *)
Record Turn : Type :=
  { turn_messages : list ChatMessage;
    turn_input : string;
    turn_files : list AttachedFile;
    turn_streaming : string }.

(** [streamingContent] after the reading loop: emptied before the
    request, then set to the text of each chunk read. *)
Definition streamed (chunks : list (list byte)) : string :=
  foldl (fun _ value => decode value) "" chunks.

Section Submit.

(** [input.trim()] *)
Variable trim : string -> string.

(** [handleSubmit]: [sent] and [answered] are the readings of the clock
    for the two message ids. *)
Definition handleSubmit (sent answered : Z) (fetched : Fetched) (t : Turn) : Turn :=
  match String.eqb (trim (turn_input t)) "", turn_files t with
  | true, [] => t
  | _, _ =>
      let userMessage := newMessage "user-" sent "user" (turn_input t) in
      match fetched with
      | ReadAll chunks =>
          {| turn_messages :=
               (turn_messages t ++ [userMessage])
               ++ [newMessage "assistant-" answered "assistant" (fullContent chunks)];
             turn_input := "";
             turn_files := [];
             turn_streaming := "" |}
      | NotOk status =>
          {| turn_messages :=
               (turn_messages t ++ [userMessage])
               ++ [newMessage "error-" answered "assistant"
                              ("HTTP error! status: " +:+ pretty status)];
             turn_input := "";
             turn_files := turn_files t;
             turn_streaming := "" |}
      | Threw chunks message =>
          {| turn_messages :=
               (turn_messages t ++ [userMessage])
               ++ [newMessage "error-" answered "assistant"
                              (if nonEmpty message then message else defaultErrorText)];
             turn_input := "";
             turn_files := turn_files t;
             turn_streaming := streamed chunks |}
      end
  end.

(** The guard of [handleSubmit]: nothing typed and nothing attached. *)
Definition isIdle (t : Turn) : bool :=
  String.eqb (trim (turn_input t)) ""
  && match turn_files t with [] => true | _ :: _ => false end.

End Submit.

End Client.

(** ** Between the client and the route *)

(** A message of the client as the route receives it. *)
Definition toServerMessage (m : Client.ChatMessage) : Message :=
  {| id := Client.msg_id m; role := Client.msg_role m;
     content := CString (Client.msg_content m) |}.

(** An attached file as [JSON.parse] returns it on the route. *)
Definition toJson (f : Client.AttachedFile) : json :=
  JObj [("id", JStr (Client.file_id f)); ("name", JStr (Client.file_name f));
        ("type", JStr (Client.file_type f));
        ("base64", JStr (Client.file_base64 f))].

Definition toChecked (f : Client.AttachedFile) : AttachedFile :=
  {| base64 := Client.file_base64 f; type := Client.file_type f |}.

(** The body [handleSubmit] posts: the messages so far with the new
    user message, and the attached files when there are some. *)
Definition requestBody (sent : Z) (t : Client.Turn) : Request :=
  {| messages :=
       toServerMessage
       <$> (Client.turn_messages t
            ++ [Client.newMessage "user-" sent "user" (Client.turn_input t)]);
     files := match Client.turn_files t with
              | [] => FilesFalsy
              | _ :: _ => FilesParsed (JArr (toJson <$> Client.turn_files t))
              end |}.

(** What the client gets of a response of the route once the reading of
    its body has ended in configuration [c]; [failure] is the message of
    the rejected read. *)
Definition seenByClient (resp : Response) (c : ReadableStream.Config)
    (failure : string) : option Client.Fetched :=
  match resp with
  | JsonResponse status _ =>
      if (200 <=? status)%Z && (status <=? 299)%Z then None
      else Some (Client.NotOk status)
  | StreamResponse _ =>
      match ReadableStream.ended c with
      | Some ReadableStream.Done =>
          Some (Client.ReadAll (ReadableStream.observed c))
      | Some ReadableStream.Failed =>
          Some (Client.Threw (ReadableStream.observed c) failure)
      | None => None
      end
  end.

(** ** Vocabulary for the relay's properties *)

(** The increments that are not empty, each encoded on its own. *)
Definition encoded (texts : list string) : list (list byte) :=
  encode <$> List.filter (fun text => negb (String.eqb text "")) texts.

(** The increments written one after the other. *)
Definition concatText (texts : list string) : string :=
  foldr String.append "" texts.

Module RelayInvariants.
Import ReadableStream.

(** A bound on the number of steps a configuration can still take. *)
Definition fuel (c : Config) : nat :=
  2 * length (pending c) + length (queue (stream c))
  + (match ended c with Some _ => 0 | None => 1 end).

(** While the upstream completes normally: before [close()] the stream
    is readable and the chunks received, queued and still to come make
    up [all]; after it the queue drains and the reading ends with
    [Done]. *)
Definition completes (all : list (list byte)) (c : Config) : Prop :=
  (exists rest,
      pending c = (Enqueue <$> rest) ++ [Close]
      /\ state (stream c) = Readable /\ closeRequested (stream c) = false
      /\ ended c = None
      /\ all = observed c ++ queue (stream c) ++ rest)
  \/ (pending c = []
      /\ all = observed c ++ queue (stream c)
      /\ closeRequested (stream c) = true
      /\ ((queue (stream c) <> [] /\ state (stream c) = Readable /\ ended c = None)
          \/ (queue (stream c) = [] /\ state (stream c) = Closed
              /\ ended c <> Some Failed))).

(** While the upstream throws after its increments: before [error()] as
    above; after it the queue is gone, the stream is errored, and what
    was received is a prefix of [all]. *)
Definition aborts (e : exn) (all : list (list byte)) (c : Config) : Prop :=
  (exists rest,
      pending c = (Enqueue <$> rest) ++ [ErrorCall e; Close]
      /\ state (stream c) = Readable /\ closeRequested (stream c) = false
      /\ ended c = None
      /\ all = observed c ++ queue (stream c) ++ rest)
  \/ ((pending c = [Close] \/ pending c = [])
      /\ state (stream c) = Errored /\ queue (stream c) = []
      /\ observed c `prefix_of` all
      /\ ended c <> Some Done).

End RelayInvariants.

(** ** Vocabulary for malformed file lists *)

(** An element the validation loop can check: an object whose [base64]
    and [type] are strings. *)
Definition wellFormedFile (file : json) : bool :=
  match prop file "base64", prop file "type" with
  | inr (Some (JStr _)), inr (Some (JStr _)) => true
  | _, _ => false
  end.

(** Parsed values on which the attachment step throws for their shape
    alone: anything but an array or a string, a non-empty string, and
    an array with an element that is not well formed. *)
Definition malformedList (parsedFiles : json) : bool :=
  match parsedFiles with
  | JArr items => existsb (fun file => negb (wellFormedFile file)) items
  | JStr s => negb (String.eqb s "")
  | JNull | JBool _ | JNum _ | JObj _ => true
  end.

(** ** Vocabulary for data URLs and translated entries *)

Fixpoint has_char (c : ascii) (s : string) : bool :=
  match s with
  | EmptyString => false
  | String a s' => Ascii.eqb a c || has_char c s'
  end.

(** [data:<mime>;base64,<payload>] *)
Definition dataUrl (mime payload : string) : string :=
  "data:" +:+ mime +:+ ";base64," +:+ payload.

(** The MIME types an inline part can carry for a file that is not a
    video. *)
Definition inlineMimeTypes : list string :=
  ["image/png"; "image/jpeg"; "application/pdf"].

(** The inline part made of a checked attachment. *)
Definition inlineOf (a : AttachedFile) : Gemini.Part :=
  inlinePart (base64 a) (Some (type a)).

(** The roles the translation keeps. *)
Definition isRelayed (m : Message) : bool :=
  String.eqb (role m) "user" || String.eqb (role m) "assistant".

(** ** Vocabulary for the stored history *)

(** Text made of ASCII characters only.  There a JavaScript string has
    one UTF-16 unit per character and the text of the model one byte
    per character, so [length] and [slice] count the same on both. *)
Fixpoint isAscii (s : string) : bool :=
  match s with
  | EmptyString => true
  | String c s' => (nat_of_ascii c <? 128)%nat && isAscii s'
  end.

(** Most recent first. *)
Definition recentFirst (l : list Client.ChatHistory) : Prop :=
  StronglySorted (fun a b => (Client.timestamp b <= Client.timestamp a)%Z) l.

(** The id under which the auto-save effect files the conversation:
    the current one, or the time read from the clock. *)
Definition chatIdAt (now : Z) (st : Client.State) : string :=
  match Client.currentChatId st with
  | Some c => if Client.nonEmpty c then c else pretty now
  | None => pretty now
  end.

(** The history the mount effect and the sidebar read from storage. *)
Definition storedHistory (JSON_parse : string -> option (list Client.ChatHistory))
    (ls : gmap string string) : list Client.ChatHistory :=
  match Client.getTruthy ls Client.STORAGE_KEY with
  | Some savedChats =>
      match JSON_parse savedChats with
      | Some history => Client.sortByRecency history
      | None => []
      end
  | None => []
  end.

(** The entry the auto-save effect writes for the conversation, and the
    history it stores. *)
Definition savedChat (now : Z) (st : Client.State) : Client.ChatHistory :=
  {| Client.id := chatIdAt now st;
     Client.title :=
       Client.titleOf
         match List.find (fun m => String.eqb (Client.msg_role m) "user")
                         (Client.st_messages st) with
         | Some m => Client.msg_content m
         | None => ""
         end;
     Client.timestamp := now;
     Client.messages := Client.st_messages st |}.

Definition savedHistory (now : Z) (st : Client.State) : list Client.ChatHistory :=
  Client.sortByRecency
    (savedChat now st
     :: List.filter (fun c => negb (String.eqb (Client.id c) (chatIdAt now st)))
                    (Client.chatHistory st)).

(** ** Sample requests *)

(** An attachment as the client serialises it
    ([JSON.stringify(attachedFiles)]). *)
Definition attachment (name type base64 : string) : json :=
  JObj [("id", JStr "1"); ("name", JStr name); ("type", JStr type);
        ("base64", JStr base64)].

(** Eight mebibytes and one character of base64 text: six decoded
    megabytes. *)
Definition big_payload : string := String "A" (pow2_copies 23 "A").

Definition userSays (text : string) : Message :=
  {| id := "user-1"; role := "user"; content := CString text |}.

Definition assistantSays (text : string) : Message :=
  {| id := "assistant-1"; role := "assistant"; content := CString text |}.

(** A provider that answers every call with the given stream. *)
Definition answering (g : Gemini.Stream) : list Gemini.Content -> throws Gemini.Stream :=
  fun _ => inr g.

Definition hello : Gemini.Stream :=
  {| Gemini.increments := ["Hel"; "lo"; "!"]; Gemini.throws_at_end := false |}.

Definition broken : Gemini.Stream :=
  {| Gemini.increments := ["Hel"]; Gemini.throws_at_end := true |}.

(** ** Sample turns and histories *)

Definition typedHi : Client.Turn :=
  {| Client.turn_messages := []; Client.turn_input := "Hi"; Client.turn_files := [];
     Client.turn_streaming := "" |}.

Definition chartFile : Client.AttachedFile :=
  {| Client.file_id := "1"; Client.file_name := "chart.png";
     Client.file_type := "image/png";
     Client.file_base64 := "data:image/png;base64,iVBORw0KGgo=" |}.

Definition typedHiWithChart : Client.Turn :=
  {| Client.turn_messages := []; Client.turn_input := "Hi";
     Client.turn_files := [chartFile]; Client.turn_streaming := "" |}.

(** The reading of [hello] to its end, and of [broken] when its chunk
    is read before the failure. *)
Definition helloRead : ReadableStream.Config :=
  {| ReadableStream.pending := [];
     ReadableStream.stream :=
       {| ReadableStream.queue := []; ReadableStream.state := ReadableStream.Closed;
          ReadableStream.closeRequested := true |};
     ReadableStream.observed := [encode "Hel"; encode "lo"; encode "!"];
     ReadableStream.ended := Some ReadableStream.Done |}.

Definition brokenRead : ReadableStream.Config :=
  {| ReadableStream.pending := [];
     ReadableStream.stream :=
       {| ReadableStream.queue := []; ReadableStream.state := ReadableStream.Errored;
          ReadableStream.closeRequested := false |};
     ReadableStream.observed := [encode "Hel"];
     ReadableStream.ended := Some ReadableStream.Failed |}.

Definition chatting : Client.State :=
  {| Client.st_messages :=
       [{| Client.msg_id := "user-1"; Client.msg_role := "user";
           Client.msg_content := "Hi" |}];
     Client.currentChatId := None;
     Client.chatHistory := [];
     Client.isMobileMenuOpen := false |}.

Definition oldChat : Client.ChatHistory :=
  {| Client.id := "42"; Client.title := "Hi"; Client.timestamp := 42;
     Client.messages :=
       [{| Client.msg_id := "user-1"; Client.msg_role := "user";
           Client.msg_content := "Hi" |}] |}.

Definition listing : Client.State :=
  {| Client.st_messages := []; Client.currentChatId := None;
     Client.chatHistory := [oldChat]; Client.isMobileMenuOpen := false |}.

(** A storage whose history text is [saved], and parsers that read every
    text as a given history. *)
Definition storing (saved : string) : gmap string string :=
  <[Client.STORAGE_KEY := saved]> ∅.

Definition readingAs (history : list Client.ChatHistory)
    : string -> option (list Client.ChatHistory) :=
  fun _ => Some history.

Definition writingAs (text : string) : list Client.ChatHistory -> string :=
  fun _ => text.

(** A payload of 6291458 characters: one byte over the ceiling. *)
Definition just_over_payload : string :=
  String "A" (String "A" (pow2_copies 22 "A" +:+ pow2_copies 21 "A")).

(** * Properties *)

(** ** The size check on small inputs *)

Example checkFileSize_small_png :
  checkFileSize "data:image/png;base64,iVBORw0KGgo=" "image/png"
  = {| valid := true; error := None |}.
Proof. reflexivity. Qed.

Example base64Length_strips_header :
  base64Length "data:image/png;base64,iVBORw0KGgo=" = 12%Z.
Proof. reflexivity. Qed.

Example base64Length_keeps_unmatched :
  base64Length "data:;base64,AAAA" = 17%Z.
Proof. reflexivity. Qed.

Example toFixed1_six : toFixed1 (inject_Z 6291456 / inject_Z (1024 * 1024)) = "6.0".
Proof. vm_compute. reflexivity. Qed.

(** ** Sizes *)

Section SizeFacts.

Lemma originalSizeBytes_eq b : originalSizeBytes b = (3 * base64Length b / 4)%Z.
Proof.
  unfold originalSizeBytes. generalize (base64Length b). intros n.
  unfold Qfloor, Qmult, inject_Z. cbn [Qnum Qden].
  change (Z.pos (1 * 100)) with (4 * 25)%Z.
  replace (n * 75)%Z with (3 * n * 25)%Z by lia.
  apply Z.div_mul_cancel_r; lia.
Qed.

Lemma exceeds_ceiling_bytes b :
  (4.5 < originalSizeMB b)%Q <-> (4718592 < originalSizeBytes b)%Z.
Proof.
  unfold originalSizeMB. generalize (originalSizeBytes b). intros n.
  change (1024 * 1024)%Z with 1048576%Z.
  unfold Qlt, Qdiv, Qmult, Qinv, inject_Z. cbn [Qnum Qden].
  change (Z.pos (1 * 1048576)) with 1048576%Z. lia.
Qed.

Lemma exceeds_ceiling_test b :
  negb (Qle_bool (originalSizeMB b) 4.5) = true <-> (4.5 < originalSizeMB b)%Q.
Proof.
  rewrite negb_true_iff. split.
  - intros H. apply Qnot_le_lt. intros Hle. apply Qle_bool_iff in Hle. congruence.
  - intros H. destruct (Qle_bool (originalSizeMB b) 4.5) eqn:E; [|done].
    apply Qle_bool_iff in E. exfalso. eapply Qlt_not_le; eauto.
Qed.

Lemma length_append s t :
  String.length (s +:+ t) = (String.length s + String.length t)%nat.
Proof.
  induction s as [|c s IH]; [done|].
  change (String c s +:+ t) with (String c (s +:+ t)).
  cbn [String.length]. by rewrite IH.
Qed.

Lemma js_length_app s t : js_length (s +:+ t) = (js_length s + js_length t)%Z.
Proof. unfold js_length. rewrite length_append. lia. Qed.

Lemma js_length_pow2_copies k s :
  js_length (pow2_copies k s) = (2 ^ Z.of_nat k * js_length s)%Z.
Proof.
  revert s. induction k as [|k IH]; intros s.
  - cbn [pow2_copies]. change (2 ^ Z.of_nat 0)%Z with 1%Z. lia.
  - cbn [pow2_copies]. rewrite IH, js_length_app.
    rewrite Nat2Z.inj_succ, Z.pow_succ_r by lia. lia.
Qed.

(** A payload that does not begin with [d] has no data-URL header to
    strip. *)
Lemma strip_keeps_plain c rest :
  Ascii.eqb c "d" = false ->
  strip_data_url_header (String c rest) = String c rest.
Proof.
  intros H. unfold strip_data_url_header, chop_prefix.
  cbn [String.prefix]. destruct (ascii_dec "d" c) as [<-|_]; [|done].
  rewrite Ascii.eqb_refl in H. done.
Qed.

End SizeFacts.

Lemma big_payload_bytes : originalSizeBytes big_payload = 6291456%Z.
Proof.
  rewrite originalSizeBytes_eq. unfold base64Length, big_payload.
  rewrite strip_keeps_plain by reflexivity.
  change (String "A" (pow2_copies 23 "A")) with ("A" +:+ pow2_copies 23 "A").
  rewrite js_length_app, js_length_pow2_copies. reflexivity.
Qed.

Lemma big_payload_exceeds : (4.5 < originalSizeMB big_payload)%Q.
Proof. apply exceeds_ceiling_bytes. rewrite big_payload_bytes. lia. Qed.

Global Opaque big_payload.


(** ** The validation loop *)

Section Validation.

Implicit Types (file : json) (b t : string) (e : exn).

Lemma checkFile_video file b t :
  prop file "base64" = inr (Some (JStr b)) ->
  prop file "type" = inr (Some (JStr t)) ->
  startsWith t "video/" = true ->
  checkFile file = inl (Error video_error).
Proof.
  intros Hb Ht Hv. unfold checkFile. rewrite Hb, Ht. cbn.
  unfold checkFileSize. rewrite Hv. reflexivity.
Qed.

Lemma checkFile_too_large file b t :
  prop file "base64" = inr (Some (JStr b)) ->
  prop file "type" = inr (Some (JStr t)) ->
  startsWith t "video/" = false ->
  (4.5 < originalSizeMB b)%Q ->
  checkFile file = inl (Error (too_large_error (originalSizeMB b))).
Proof.
  intros Hb Ht Hv Hsz. unfold checkFile. rewrite Hb, Ht. cbn.
  unfold checkFileSize. rewrite Hv.
  apply exceeds_ceiling_test in Hsz. rewrite Hsz. reflexivity.
Qed.

Lemma checkFile_passes file b t :
  prop file "base64" = inr (Some (JStr b)) ->
  prop file "type" = inr (Some (JStr t)) ->
  startsWith t "video/" = false ->
  ~ (4.5 < originalSizeMB b)%Q ->
  checkFile file = inr {| base64 := b; type := t |}.
Proof.
  intros Hb Ht Hv Hsz. unfold checkFile. rewrite Hb, Ht. cbn.
  unfold checkFileSize. rewrite Hv.
  destruct (negb (Qle_bool (originalSizeMB b) 4.5)) eqn:E; [|reflexivity].
  apply exceeds_ceiling_test in E. contradiction.
Qed.

(** An attachment over the ceiling never passes, whatever its type
    field holds. *)
Lemma checkFile_oversize_throws file b :
  prop file "base64" = inr (Some (JStr b)) ->
  (4.5 < originalSizeMB b)%Q ->
  exists e, checkFile file = inl e.
Proof.
  intros Hb Hsz. destruct (prop file "type") as [e|[[]|]] eqn:Ht;
    try (eexists; unfold checkFile; rewrite Hb, Ht; reflexivity).
  destruct (startsWith s "video/") eqn:Hv.
  - eexists. eapply checkFile_video; eauto.
  - eexists. eapply checkFile_too_large; eauto.
Qed.

Lemma checkFiles_app_throws before file after e :
  checkFile file = inl e ->
  exists e', checkFiles (before ++ file :: after) = inl e'.
Proof.
  intros Hf. induction before as [|x before [e' IH]]; cbn.
  - exists e. by rewrite Hf.
  - destruct (checkFile x) as [ex|fx]; cbn; [by eexists|].
    exists e'. by rewrite IH.
Qed.

Lemma checkFiles_first_failure before checked file after e :
  checkFiles before = inr checked ->
  checkFile file = inl e ->
  checkFiles (before ++ file :: after) = inl e.
Proof.
  revert checked. induction before as [|x before IH]; intros checked Hb Hf; cbn.
  - by rewrite Hf.
  - cbn in Hb. destruct (checkFile x) as [ex|fx]; cbn in *; [done|].
    destruct (checkFiles before) as [eb|fb]; cbn in *; [done|].
    by rewrite (IH fb).
Qed.

Lemma checkFiles_length items checked :
  checkFiles items = inr checked -> length checked = length items.
Proof.
  revert checked. induction items as [|x items IH]; intros checked; cbn.
  - by intros [= <-].
  - destruct (checkFile x) as [ex|fx]; cbn; [done|].
    destruct (checkFiles items) as [eb|fb]; cbn; [done|].
    intros [= <-]. cbn. by rewrite (IH fb).
Qed.

(** A file that passes is returned with the two fields it has. *)
Lemma checkFile_view file (a : AttachedFile) :
  checkFile file = inr a ->
  prop file "base64" = inr (Some (JStr (base64 a)))
  /\ prop file "type" = inr (Some (JStr (type a)))
  /\ valid (checkFileSize (base64 a) (type a)) = true.
Proof.
  unfold checkFile. intros H.
  destruct (prop file "base64") as [e|b'] eqn:Hb; [done|].
  destruct (prop file "type") as [e|t'] eqn:Ht; [done|]. cbn in H.
  destruct b' as [[| | |b| |]|]; try done.
  destruct t' as [[| | |t| |]|]; try done.
  destruct (valid (checkFileSize b t)) eqn:Hv; [|done].
  by injection H as <-.
Qed.

Lemma checkFiles_view items checked :
  checkFiles items = inr checked ->
  Forall2 (fun file a =>
             prop file "base64" = inr (Some (JStr (base64 a)))
             /\ prop file "type" = inr (Some (JStr (type a))))
          items checked.
Proof.
  revert checked. induction items as [|x items IH]; intros checked; cbn.
  - intros [= <-]. constructor.
  - destruct (checkFile x) as [ex|fx] eqn:Hx; cbn; [done|].
    destruct (checkFiles items) as [eb|fb]; cbn; [done|].
    intros [= <-]. constructor; [|by apply IH].
    by destruct (checkFile_view _ _ Hx) as (? & ? & _).
Qed.

End Validation.

(** ** What POST does with the outcome of the attachment step *)

Section HandlerFacts.

Variable GEMINI_API_KEY : option string.
Variable generateContentStream : list Gemini.Content -> throws Gemini.Stream.

Lemma POST_rejects req e :
  enhance req = inl e ->
  POST GEMINI_API_KEY generateContentStream req
  = rejected 400 (message e) (Literal file_error_details) [].
Proof. intros H. unfold POST. by rewrite H. Qed.

Lemma POST_streams req enhancedMessages geminiStream :
  enhance req = inr enhancedMessages ->
  apiKeySet GEMINI_API_KEY = true ->
  generateContentStream (buildGoogleGenAIPrompt enhancedMessages) = inr geminiStream ->
  POST GEMINI_API_KEY generateContentStream req
  = {| response := StreamResponse (start geminiStream);
       upstream_calls := [buildGoogleGenAIPrompt enhancedMessages] |}.
Proof. intros H Hk Hg. unfold POST. by rewrite H, Hk, Hg. Qed.

Lemma enhance_array_throws msgs items e :
  checkFiles items = inl e ->
  enhance {| messages := msgs; files := FilesParsed (JArr items) |} = inl e.
Proof. intros H. unfold enhance. cbn. by rewrite H. Qed.

Lemma enhance_array_passes msgs items checked :
  checkFiles items = inr checked ->
  enhance {| messages := msgs; files := FilesParsed (JArr items) |}
  = inr (attachFiles msgs checked).
Proof. intros H. unfold enhance. cbn. by rewrite H. Qed.

End HandlerFacts.


(** ** Attachments over the size ceiling *)

(** C1, as the code has it: when the parsed file list holds an attachment
    whose decoded size exceeds 4.5 MB, POST answers with the structured
    400 response and hands nothing to the provider; the error it reports
    is the file-too-large message when the attachments before it pass
    the check and its type is a string that does not start with
    [video/]. *)
Theorem oversize_attachment_rejected
    (key : option string) (gen : list Gemini.Content -> throws Gemini.Stream)
    (msgs : list Message) (before : list json) (file : json) (after : list json)
    (b : string) :
  prop file "base64" = inr (Some (JStr b)) ->
  (4.5 < originalSizeMB b)%Q ->
  (exists e,
      POST key gen {| messages := msgs;
                      files := FilesParsed (JArr (before ++ file :: after)) |}
      = rejected 400 (message e) (Literal file_error_details) [])
  /\ (forall checked t,
        checkFiles before = inr checked ->
        prop file "type" = inr (Some (JStr t)) ->
        startsWith t "video/" = false ->
        POST key gen {| messages := msgs;
                        files := FilesParsed (JArr (before ++ file :: after)) |}
        = rejected 400 (Literal (too_large_error (originalSizeMB b)))
                   (Literal file_error_details) []).
Proof.
  intros Hb Hsz. split.
  - destruct (checkFile_oversize_throws file b Hb Hsz) as [e He].
    destruct (checkFiles_app_throws before file after e He) as [e' He'].
    exists e'. apply POST_rejects, enhance_array_throws, He'.
  - intros checked t Hbefore Ht Hv.
    rewrite (POST_rejects key gen _ (Error (too_large_error (originalSizeMB b)))); [done|].
    apply enhance_array_throws.
    eapply checkFiles_first_failure; [exact Hbefore|].
    by apply checkFile_too_large with (t := t).
Qed.

Lemma oversize_attachment_rejected_witness :
  POST (Some "key") (answering hello)
       {| messages := [userSays "Summarize this"];
          files := FilesParsed (JArr ([] ++ attachment "big.png" "image/png" big_payload :: [])) |}
  = rejected 400 (Literal (too_large_error (originalSizeMB big_payload)))
             (Literal file_error_details) [].
Proof.
  apply (proj2 (oversize_attachment_rejected (Some "key") (answering hello)
                  [userSays "Summarize this"] []
                  (attachment "big.png" "image/png" big_payload) []
                  big_payload eq_refl big_payload_exceeds)
           [] "image/png" eq_refl eq_refl eq_refl).
Defined.

(** C1 as the spec words it fails for a video: the video check comes
    first, so an oversize video is reported as an unsupported kind. *)
Lemma oversize_video_reported_as_video :
  (4.5 < originalSizeMB big_payload)%Q
  /\ POST (Some "key") (answering hello)
          {| messages := [userSays "Summarize this"];
             files := FilesParsed (JArr [attachment "clip.mp4" "video/mp4" big_payload]) |}
     = rejected 400 (Literal video_error) (Literal file_error_details) []
  /\ Literal video_error <> Literal (too_large_error (originalSizeMB big_payload)).
Proof.
  split; [exact big_payload_exceeds|]. split.
  - rewrite (POST_rejects _ _ _ (Error video_error)); [done|].
    apply enhance_array_throws.
    apply (checkFiles_first_failure [] [] _ [] _ eq_refl).
    by apply checkFile_video with (b := big_payload) (t := "video/mp4").
  - generalize (originalSizeMB big_payload). intros x. unfold too_large_error, video_error.
    change ("File too large (" +:+ toFixed1 x +:+ "MB). Maximum size is 4.5MB.")
      with (String "F" ("ile too large (" +:+ toFixed1 x +:+ "MB). Maximum size is 4.5MB.")).
    discriminate.
Qed.

(** ** Video attachments *)

(** C2: an attachment whose type starts with [video/] fails the check
    with the videos-not-supported error whatever its payload is, POST
    then answers 400 without calling the provider, and that error is the
    one reported when the attachments before it pass. *)
Theorem video_attachment_rejected
    (key : option string) (gen : list Gemini.Content -> throws Gemini.Stream)
    (msgs : list Message) (before : list json) (file : json) (after : list json)
    (b t : string) :
  prop file "base64" = inr (Some (JStr b)) ->
  prop file "type" = inr (Some (JStr t)) ->
  startsWith t "video/" = true ->
  (forall payload, checkFileSize payload t = {| valid := false; error := Some video_error |})
  /\ (exists e,
        POST key gen {| messages := msgs;
                        files := FilesParsed (JArr (before ++ file :: after)) |}
        = rejected 400 (message e) (Literal file_error_details) [])
  /\ (forall checked,
        checkFiles before = inr checked ->
        POST key gen {| messages := msgs;
                        files := FilesParsed (JArr (before ++ file :: after)) |}
        = rejected 400 (Literal video_error) (Literal file_error_details) []).
Proof.
  intros Hb Ht Hv.
  assert (He : checkFile file = inl (Error video_error))
    by (by apply checkFile_video with (b := b) (t := t)).
  split; [|split].
  - intros payload. unfold checkFileSize. by rewrite Hv.
  - destruct (checkFiles_app_throws before file after _ He) as [e' He'].
    exists e'. apply POST_rejects, enhance_array_throws, He'.
  - intros checked Hbefore.
    rewrite (POST_rejects key gen _ (Error video_error)); [done|].
    apply enhance_array_throws. by eapply checkFiles_first_failure.
Qed.

Lemma video_attachment_rejected_witness :
  POST (Some "key") (answering hello)
       {| messages := [userSays "What happens here?"];
          files := FilesParsed
                     (JArr ([] ++ attachment "clip.mp4" "video/mp4"
                                    "data:video/mp4;base64,AAAAIGZ0eXA=" :: [])) |}
  = rejected 400 (Literal video_error) (Literal file_error_details) [].
Proof.
  apply (proj2 (proj2 (video_attachment_rejected (Some "key") (answering hello)
                         [userSays "What happens here?"] []
                         (attachment "clip.mp4" "video/mp4"
                                     "data:video/mp4;base64,AAAAIGZ0eXA=") []
                         "data:video/mp4;base64,AAAAIGZ0eXA=" "video/mp4"
                         eq_refl eq_refl eq_refl)) [] eq_refl).
Defined.


(** ** MIME types *)

Section Mime.

Lemma startsWith_first_char s p p' c q :
  startsWith s (String c p) = true -> startsWith s (String q p') = true -> c = q.
Proof.
  unfold startsWith. destruct s as [|a s]; cbn; [done|].
  destruct (ascii_dec c a), (ascii_dec q a); congruence.
Qed.

Lemma video_is_not_image t :
  startsWith t "video/" = true -> startsWith t "image/" = false.
Proof.
  intros Hv. destruct (startsWith t "image/") eqn:Hi; [|done].
  by pose proof (startsWith_first_char _ _ _ _ _ Hv Hi).
Qed.

Lemma video_is_not_pdf t :
  startsWith t "video/" = true -> String.eqb t "application/pdf" = false.
Proof.
  intros Hv. apply String.eqb_neq. intros ->. discriminate.
Qed.

End Mime.

(** C5 as the spec words it fails: a declared image type other than PNG
    is not the type that is attached. *)
Lemma declared_gif_resolves_to_jpeg :
  getMimeType "image/gif" "data:image/gif;base64,R0lGODlhAQABAAAAACw=" = "image/jpeg"
  /\ getMimeType "image/gif" "data:image/gif;base64,R0lGODlhAQABAAAAACw=" <> "image/gif".
Proof. split; [reflexivity | discriminate]. Qed.

(** C5, as the code has it: a declared type of [image/png],
    [application/pdf] or [video/...] is used as declared; any other
    declared [image/...] type resolves to [image/jpeg]; with any other
    declared type, or none, the payload is searched for
    [data:image/png], then [data:image/jpeg] or [data:image/jpg], then
    [data:application/pdf], and [image/jpeg] is the default. *)
Theorem mime_type_precedence (fileType base64 : string) :
  (fileType = "image/png" \/ fileType = "application/pdf"
     \/ startsWith fileType "video/" = true ->
   getMimeType fileType base64 = fileType)
  /\ (startsWith fileType "image/" = true -> fileType <> "image/png" ->
      getMimeType fileType base64 = "image/jpeg")
  /\ (startsWith fileType "image/" = false -> fileType <> "application/pdf" ->
      startsWith fileType "video/" = false ->
      (includes base64 "data:image/png" = true ->
       getMimeType fileType base64 = "image/png")
      /\ (includes base64 "data:image/png" = false ->
          includes base64 "data:image/jpeg" = true
            \/ includes base64 "data:image/jpg" = true ->
          getMimeType fileType base64 = "image/jpeg")
      /\ (includes base64 "data:image/png" = false ->
          includes base64 "data:image/jpeg" = false ->
          includes base64 "data:image/jpg" = false ->
          includes base64 "data:application/pdf" = true ->
          getMimeType fileType base64 = "application/pdf")
      /\ (includes base64 "data:image/png" = false ->
          includes base64 "data:image/jpeg" = false ->
          includes base64 "data:image/jpg" = false ->
          includes base64 "data:application/pdf" = false ->
          getMimeType fileType base64 = "image/jpeg")).
Proof.
  split; [|split].
  - intros [-> | [-> | Hv]]; [reflexivity | reflexivity |].
    unfold getMimeType.
    by rewrite (video_is_not_image _ Hv), (video_is_not_pdf _ Hv), Hv.
  - intros Hi Hne. unfold getMimeType. rewrite Hi.
    apply String.eqb_neq in Hne. by rewrite Hne.
  - intros Hi Hpdf Hv. apply String.eqb_neq in Hpdf.
    unfold getMimeType. rewrite Hi, Hpdf, Hv.
    repeat split.
    + by intros ->.
    + intros -> [-> | ->]; [done|]. by rewrite orb_true_r.
    + by intros -> -> -> ->.
    + by intros -> -> -> ->.
Qed.

(** ** Translation to the provider's format *)

Section Translation.

Lemma buildGoogleGenAIPrompt_app l1 l2 :
  buildGoogleGenAIPrompt (l1 ++ l2)
  = buildGoogleGenAIPrompt l1 ++ buildGoogleGenAIPrompt l2.
Proof.
  induction l1 as [|m l1 IH]; cbn; [done|]. by rewrite IH, app_assoc.
Qed.

Lemma buildGoogleGenAIPrompt_middle pre m post :
  buildGoogleGenAIPrompt (pre ++ m :: post)
  = buildGoogleGenAIPrompt pre ++ convertMessage m ++ buildGoogleGenAIPrompt post.
Proof. by rewrite buildGoogleGenAIPrompt_app. Qed.

Lemma contentOrEmpty_string text : contentOrEmpty (CString text) = CString text.
Proof.
  unfold contentOrEmpty. cbn. destruct (String.eqb_spec text ""); by subst.
Qed.

Lemma findLastIndex_Some {A} (p : A -> bool) (l : list A) i :
  findLastIndex p l = Some i ->
  exists x, l !! i = Some x /\ p x = true
            /\ forall j y, i < j -> l !! j = Some y -> p y = false.
Proof.
  revert i. induction l as [|a l IH]; intros i; cbn; [done|].
  destruct (findLastIndex p l) as [k|] eqn:E.
  - intros [= <-]. destruct (IH k eq_refl) as (x & Hx & Hp & Hlast).
    exists x. repeat split; [done..|].
    intros [|j] y Hj; [lia|]. cbn. apply Hlast. lia.
  - destruct (p a) eqn:Hp; [|done]. intros [= <-].
    exists a. repeat split; [done..|].
    intros [|j] y Hj; [lia|]. cbn. intros Hy.
    clear IH. revert j y Hy Hj. induction l as [|b l IHl]; intros j y; [done|].
    cbn in E. destruct (findLastIndex p l) eqn:E'; [done|].
    destruct (p b) eqn:Hb; [done|].
    destruct j as [|j]; cbn; [by intros [= <-]|].
    intros Hy _. apply (IHl eq_refl j y Hy). lia.
Qed.

Lemma findLastIndex_None {A} (p : A -> bool) (l : list A) :
  findLastIndex p l = None -> forall x, x ∈ l -> p x = false.
Proof.
  induction l as [|a l IH]; cbn; intros H x Hx.
  - by apply elem_of_nil in Hx.
  - destruct (findLastIndex p l); [done|]. destruct (p a) eqn:Hp; [done|].
    apply elem_of_cons in Hx as [-> | Hx]; [done|]. by apply IH.
Qed.

Lemma findLastIndex_middle {A} (p : A -> bool) (pre : list A) m post :
  p m = true -> findLastIndex p post = None ->
  findLastIndex p (pre ++ m :: post) = Some (length pre).
Proof.
  intros Hm Hpost. induction pre as [|a pre IH]; cbn.
  - by rewrite Hpost, Hm.
  - by rewrite IH.
Qed.

Lemma isUser_role m : isUser m = true <-> role m = "user".
Proof. unfold isUser. apply String.eqb_eq. Qed.

Lemma attachFiles_middle pre m post f fs :
  isUser m = true -> findLastIndex isUser post = None ->
  attachFiles (pre ++ m :: post) (f :: fs) = pre ++ withFiles m (f :: fs) :: post.
Proof.
  intros Hm Hpost. unfold attachFiles.
  rewrite (findLastIndex_middle _ _ _ _ Hm Hpost).
  rewrite list_lookup_middle by done.
  replace (length pre) with (length pre + 0) by lia.
  by rewrite insert_app_r.
Qed.

End Translation.

(** C4: an assistant message is re-labelled [model] and carries its text
    unchanged as its only part; a user message keeps the label [user].
    The entries around it are those of the messages around it. *)
Theorem assistant_becomes_model
    (pre post : list Message) (i text : string) (c : Content) :
  buildGoogleGenAIPrompt
    (pre ++ {| id := i; role := "assistant"; content := CString text |} :: post)
  = buildGoogleGenAIPrompt pre
    ++ {| Gemini.role := "model"; Gemini.parts := [Gemini.Text (CString text)] |}
    :: buildGoogleGenAIPrompt post
  /\ buildGoogleGenAIPrompt (pre ++ {| id := i; role := "user"; content := c |} :: post)
     = buildGoogleGenAIPrompt pre
       ++ {| Gemini.role := "user"; Gemini.parts := userParts c |}
       :: buildGoogleGenAIPrompt post
  /\ userParts (CString text) = [Gemini.Text (CString text)].
Proof.
  rewrite !buildGoogleGenAIPrompt_middle. unfold convertMessage. cbn.
  by rewrite contentOrEmpty_string.
Qed.

(** C6 as the spec words it fails for a history without a user
    message: the guard on [findLastIndex] leaves the history as it is,
    and the attachment, though valid, reaches no message and no entry of
    the payload. *)
Lemma attachment_without_user_message_goes_nowhere :
  checkFiles [attachment "chart.png" "image/png" "iVBORw0KGgo="]
  = inr [{| base64 := "iVBORw0KGgo="; type := "image/png" |}]
  /\ findLastIndex isUser [assistantSays "Hello"] = None
  /\ enhance {| messages := [assistantSays "Hello"];
                files := FilesParsed
                           (JArr [attachment "chart.png" "image/png" "iVBORw0KGgo="]) |}
     = inr [assistantSays "Hello"]
  /\ upstream_calls
       (POST (Some "key") (answering hello)
             {| messages := [assistantSays "Hello"];
                files := FilesParsed
                           (JArr [attachment "chart.png" "image/png" "iVBORw0KGgo="]) |})
     = [[ {| Gemini.role := "model";
             Gemini.parts := [Gemini.Text (CString "Hello")] |} ]].
Proof. repeat split; vm_compute; reflexivity. Qed.

(** C6, as the code has it: with a non-empty list of validated
    attachments the attachment step keeps the length of the history;
    when the history has a user message, the last such message, and no
    other, is replaced: it keeps its id and role and its content becomes
    its former content as a text part (none when that was empty or
    missing) followed by one image part per attachment, in the order of
    the list, each with the attachment's base64 text and declared type;
    every other message is left as it was.  When the history has no user
    message the attachments reach no message and nothing changes.  The
    attachments are those of the parsed list, one for one. *)
Theorem attachments_go_to_last_user_message
    (msgs : list Message) (f : AttachedFile) (fs : list AttachedFile) :
  length (attachFiles msgs (f :: fs)) = length msgs
  /\ match findLastIndex isUser msgs with
     | Some i =>
         (exists m,
             msgs !! i = Some m /\ role m = "user"
             /\ attachFiles msgs (f :: fs) !! i
                = Some {| id := id m;
                          role := role m;
                          content :=
                            CArray
                              ((if truthy (content m) then [TextPart (content m)]
                                else [])
                               ++ ((fun file =>
                                      ImagePart (base64 file) (Some (type file)))
                                   <$> f :: fs)) |})
         /\ (forall j m', i < j -> msgs !! j = Some m' -> role m' <> "user")
         /\ (forall j, j <> i -> attachFiles msgs (f :: fs) !! j = msgs !! j)
     | None =>
         attachFiles msgs (f :: fs) = msgs
         /\ forall m, m ∈ msgs -> role m <> "user"
     end
  /\ (forall items, checkFiles items = inr (f :: fs) ->
        enhance {| messages := msgs; files := FilesParsed (JArr items) |}
        = inr (attachFiles msgs (f :: fs))
        /\ Forall2 (fun file a =>
                      prop file "base64" = inr (Some (JStr (base64 a)))
                      /\ prop file "type" = inr (Some (JStr (type a))))
                   items (f :: fs)).
Proof.
  split; [|split].
  - unfold attachFiles. destruct (findLastIndex isUser msgs) as [i|]; [|done].
    destruct (msgs !! i); [|done]. apply length_insert.
  - unfold attachFiles. destruct (findLastIndex isUser msgs) as [i|] eqn:E.
    + destruct (findLastIndex_Some _ _ _ E) as (m & Hm & Hu & Hlast).
      rewrite Hm. split; [|split].
      * exists m. split; [done|]. split; [by apply isUser_role|].
        rewrite list_lookup_insert_eq by (by eapply lookup_lt_Some).
        f_equal. unfold withFiles, fileParts. by destruct (truthy (content m)).
      * intros j m' Hj Hm' Hr. apply isUser_role in Hr.
        by rewrite (Hlast j m' Hj Hm') in Hr.
      * intros j Hj. by apply list_lookup_insert_ne.
    + split; [done|]. intros m Hm Hr. apply isUser_role in Hr.
      by rewrite (findLastIndex_None _ _ E m Hm) in Hr.
  - intros items H. split; [by apply enhance_array_passes | by apply checkFiles_view].
Qed.

(** ** A text message with one PNG attachment *)

Section InlineData.

Lemma includes_after_first s sep :
  includes s sep = true -> is_Some (after_first sep s).
Proof.
  induction s as [|c s IH]; cbn [includes after_first].
  - destruct (String.prefix sep ""); [by eexists | done].
  - destruct (String.prefix sep (String c s)); [by eexists|]. exact IH.
Qed.

(** When the marker is there, [split] has a second piece: the fallback
    of [base64Data] is never taken. *)
Lemma base64Data_marker image :
  includes image "base64," = true ->
  split_1 image "base64," = Some (base64Data image).
Proof.
  intros H. unfold base64Data. rewrite H.
  unfold split_1. by destruct (includes_after_first _ _ H) as [d ->].
Qed.

Lemma inlinePart_png image :
  inlinePart image (Some "image/png")
  = Gemini.InlineData "image/png" (base64Data image).
Proof. reflexivity. Qed.

End InlineData.

Example base64Data_of_data_url :
  base64Data "data:image/png;base64,iVBORw0KGgo=" = "iVBORw0KGgo=".
Proof. reflexivity. Qed.

(** C3: when the last user message of the history has a non-empty text
    and the request carries one valid attachment declared [image/png],
    the payload handed to the provider has, at that message's place, an
    entry with role [user] and exactly two parts: the text, unchanged and
    on its own, then the inline data with MIME type [image/png]. *)
Theorem text_then_png_part
    (key : option string) (gen : list Gemini.Content -> throws Gemini.Stream)
    (pre : list Message) (m : Message) (post : list Message)
    (text : string) (file : json) (b : string) :
  role m = "user" ->
  content m = CString text ->
  text <> "" ->
  findLastIndex isUser post = None ->
  prop file "base64" = inr (Some (JStr b)) ->
  prop file "type" = inr (Some (JStr "image/png")) ->
  ~ (4.5 < originalSizeMB b)%Q ->
  apiKeySet key = true ->
  upstream_calls
    (POST key gen {| messages := pre ++ m :: post;
                     files := FilesParsed (JArr [file]) |})
  = [ buildGoogleGenAIPrompt pre
      ++ {| Gemini.role := "user";
            Gemini.parts := [ Gemini.Text (CString text);
                              Gemini.InlineData "image/png" (base64Data b) ] |}
      :: buildGoogleGenAIPrompt post ].
Proof.
  intros Hrole Hcontent Htext Hpost Hb Ht Hsize Hkey.
  assert (Hfile : checkFile file = inr {| base64 := b; type := "image/png" |})
    by (by apply checkFile_passes).
  assert (Hfiles : checkFiles [file] = inr [{| base64 := b; type := "image/png" |}])
    by (cbn; by rewrite Hfile).
  unfold POST. rewrite (enhance_array_passes _ _ _ Hfiles), Hkey.
  rewrite attachFiles_middle by (by rewrite ?isUser_role).
  rewrite buildGoogleGenAIPrompt_middle.
  assert (Hconv : convertMessage (withFiles m [{| base64 := b; type := "image/png" |}])
                  = [ {| Gemini.role := "user";
                         Gemini.parts := [ Gemini.Text (CString text);
                                           Gemini.InlineData "image/png" (base64Data b) ] |} ]).
  { unfold convertMessage, withFiles. cbn [role content]. rewrite Hrole, Hcontent.
    cbn [String.eqb Ascii.eqb Bool.eqb truthy]. apply String.eqb_neq in Htext.
    rewrite Htext. reflexivity. }
  rewrite Hconv.
  by destruct (gen _).
Qed.

Lemma text_then_png_part_witness :
  upstream_calls
    (POST (Some "key") (answering hello)
          {| messages := [assistantSays "Hello"] ++ userSays "Summarize this" :: [];
             files := FilesParsed
                        (JArr [attachment "chart.png" "image/png"
                                          "data:image/png;base64,iVBORw0KGgo="]) |})
  = [ buildGoogleGenAIPrompt [assistantSays "Hello"]
      ++ {| Gemini.role := "user";
            Gemini.parts := [ Gemini.Text (CString "Summarize this");
                              Gemini.InlineData "image/png"
                                (base64Data "data:image/png;base64,iVBORw0KGgo=") ] |}
      :: buildGoogleGenAIPrompt [] ].
Proof.
  apply (text_then_png_part (Some "key") (answering hello)
           [assistantSays "Hello"] (userSays "Summarize this") []
           "Summarize this"
           (attachment "chart.png" "image/png" "data:image/png;base64,iVBORw0KGgo=")
           "data:image/png;base64,iVBORw0KGgo=").
  - reflexivity.
  - reflexivity.
  - discriminate.
  - reflexivity.
  - reflexivity.
  - reflexivity.
  - rewrite exceeds_ceiling_bytes. vm_compute. discriminate.
  - reflexivity.
Defined.

(** ** The relay *)

Section Relay.
Import ReadableStream RelayInvariants.

Lemma relay_enqueues texts : relay texts = Enqueue <$> encoded texts.
Proof.
  unfold encoded. induction texts as [|text texts IH]; cbn; [done|].
  rewrite IH. by destruct (String.eqb text "").
Qed.

Lemma encode_app s t : encode (s +:+ t) = encode s ++ encode t.
Proof.
  unfold encode, list_byte_of_string. induction s as [|c s IH]; [done|].
  change (String c s +:+ t) with (String c (s +:+ t)).
  cbn [list_ascii_of_string map app]. by rewrite IH.
Qed.

Lemma concat_encoded texts : List.concat (encoded texts) = encode (concatText texts).
Proof.
  induction texts as [|text texts IH]; [done|].
  change (concatText (text :: texts)) with (text +:+ concatText texts).
  rewrite encode_app, <- IH. unfold encoded. cbn [List.filter].
  destruct (String.eqb_spec text "") as [->|_]; reflexivity.
Qed.

(** *** Every run ends *)

Lemma step_fuel c c' : step c c' -> fuel c' < fuel c.
Proof.
  destruct 1 as [call cs s obs e | | |]; unfold fuel; cbn; try lia.
  - destruct call; cbn.
    + destruct (canCloseOrEnqueue s); cbn; rewrite ?length_app; cbn; lia.
    + destruct (state s); cbn; lia.
    + destruct (canCloseOrEnqueue s); [|lia]. destruct (queue s); cbn; lia.
Qed.

Lemma step_or_finished c : (exists c', step c c') \/ finished c.
Proof.
  destruct c as [[|call cs] [[|chunk q] st cr] obs [e|]];
    try (left; eexists; constructor; fail);
    try (right; intros c' Hs; inversion Hs; fail).
  destruct st.
  - right. intros c' Hs. inversion Hs.
  - left. eexists. constructor.
  - left. eexists. constructor.
Qed.

Lemma runs_to_end c : exists c', rtc step c c' /\ finished c'.
Proof.
  remember (fuel c) as n eqn:Hn. revert c Hn.
  induction n as [n IH] using lt_wf_ind. intros c ->.
  destruct (step_or_finished c) as [[c1 Hs] | Hf].
  - destruct (IH (fuel c1) (step_fuel _ _ Hs) c1 eq_refl) as (c' & Hrun & Hend).
    exists c'. split; [by eapply rtc_l | done].
  - exists c. split; [apply rtc_refl | done].
Qed.

(** *** What was received is never taken back *)

Lemma step_observed c c' : step c c' -> observed c `prefix_of` observed c'.
Proof. destruct 1; cbn; try done. by apply prefix_app_r. Qed.

Lemma step_after_end c c' e :
  step c c' -> ended c = Some e -> ended c' = Some e /\ observed c' = observed c.
Proof. destruct 1; cbn; intros; done. Qed.

Lemma run_after_end c c' e :
  rtc step c c' -> ended c = Some e -> ended c' = Some e /\ observed c' = observed c.
Proof.
  induction 1 as [|c c1 c2 Hs _ IH]; [done|]. intros He.
  destruct (step_after_end _ _ _ Hs He) as [He1 Ho1].
  destruct (IH He1) as [He2 Ho2]. split; congruence.
Qed.

End Relay.

(** *** A stream that completes *)

Section Completes.
Import ReadableStream RelayInvariants.

Lemma canCloseOrEnqueue_readable s :
  state s = Readable -> closeRequested s = false -> canCloseOrEnqueue s = true.
Proof. unfold canCloseOrEnqueue. by intros -> ->. Qed.

Lemma canCloseOrEnqueue_errored s :
  state s = Errored -> canCloseOrEnqueue s = false.
Proof. unfold canCloseOrEnqueue. by intros ->. Qed.

Lemma completes_initial all : completes all (initial ((Enqueue <$> all) ++ [Close])).
Proof. left. exists all. by cbn. Qed.

Lemma completes_step all c c' : completes all c -> step c c' -> completes all c'.
Proof.
  intros Hinv Hs.
  destruct Hs as [call cs s obs e | cs chunk q st cr obs | cs cr obs | cs cr obs];
    destruct Hinv as [(rest & Hp & Hst & Hcr & He & Hall)
                     | (Hp & Hall & Hcr & [(Hq & Hst & He) | (Hq & Hst & He)])];
    cbn [pending stream observed ended queue state closeRequested] in *; try done.
  - destruct rest as [|r rest]; cbn in Hp; injection Hp as -> ->.
    + unfold completes, call. rewrite (canCloseOrEnqueue_readable s Hst Hcr).
      rewrite app_nil_r in Hall. right. destruct (queue s) eqn:Hq; cbn.
      * repeat split; try done. right. by rewrite He.
      * repeat split; try done. left. by rewrite He.
    + left. exists rest. unfold call.
      rewrite (canCloseOrEnqueue_readable s Hst Hcr). cbn.
      repeat split; try done. rewrite Hall. by rewrite <- !app_assoc.
  - left. exists rest. subst cr st. cbn. repeat split; try done.
    + by destruct q.
    + rewrite Hall. by rewrite <- !app_assoc.
  - right. subst cr st. cbn. repeat split; try done.
    + rewrite Hall. by rewrite <- !app_assoc.
    + destruct q; [right | left]; done.
  - right. cbn. repeat split; try done. by right.
Qed.

Lemma completes_run all c c' : completes all c -> rtc step c c' -> completes all c'.
Proof. intros Hinv Hrun. induction Hrun; eauto using completes_step. Qed.

Lemma completes_observed all c :
  completes all c -> observed c `prefix_of` all /\ ended c <> Some Failed.
Proof.
  intros [(rest & Hp & Hst & Hcr & He & Hall)
         | (Hp & Hall & Hcr & [(Hq & Hst & He) | (Hq & Hst & He)])];
    (split; [rewrite Hall; by apply prefix_app_r | congruence]).
Qed.

Lemma completes_finished all c :
  completes all c -> finished c -> observed c = all /\ ended c = Some Done.
Proof.
  destruct c as [p [q st cr] obs e].
  intros [(rest & Hp & Hst & Hcr & He & Hall)
         | (Hp & Hall & Hcr & [(Hq & Hst & He) | (Hq & Hst & He)])] Hf;
    cbn [pending stream observed ended queue state closeRequested] in *; subst.
  - exfalso. destruct rest; cbn in Hf; eapply Hf; constructor.
  - exfalso. destruct q as [|chunk q]; [done|]. eapply Hf; constructor.
  - rewrite app_nil_r. split; [done|].
    destruct e as [[]|]; [done | done |]. exfalso. eapply Hf. constructor.
Qed.

End Completes.

(** *** A stream that fails *)

Section Aborts.
Import ReadableStream RelayInvariants.

Lemma aborts_initial e all :
  aborts e all (initial ((Enqueue <$> all) ++ [ErrorCall e; Close])).
Proof. left. exists all. by cbn. Qed.

Lemma aborts_step e all c c' : aborts e all c -> step c c' -> aborts e all c'.
Proof.
  intros Hinv Hs.
  destruct Hs as [call cs s obs en | cs chunk q st cr obs | cs cr obs | cs cr obs];
    destruct Hinv as [(rest & Hp & Hst & Hcr & He & Hall)
                     | (Hp & Hst & Hq & Hpre & He)];
    cbn [pending stream observed ended queue state closeRequested] in *; try done.
  - destruct rest as [|r rest]; cbn in Hp; injection Hp as -> ->.
    + right. unfold call. rewrite Hst. cbn. repeat split; try done; [by left | | congruence].
      rewrite Hall. by apply prefix_app_r.
    + left. exists rest. unfold call.
      rewrite (canCloseOrEnqueue_readable s Hst Hcr). cbn.
      repeat split; try done. rewrite Hall. by rewrite <- !app_assoc.
  - right. destruct Hp as [[= -> ->] | [=]].
    unfold call. rewrite (canCloseOrEnqueue_errored s Hst).
    repeat split; try done. by right.
  - left. exists rest. subst cr st. cbn. repeat split; try done.
    + by destruct q.
    + rewrite Hall. by rewrite <- !app_assoc.
  - right. repeat split; done.
Qed.

Lemma aborts_run e all c c' : aborts e all c -> rtc step c c' -> aborts e all c'.
Proof. intros Hinv Hrun. induction Hrun; eauto using aborts_step. Qed.

Lemma aborts_observed e all c :
  aborts e all c -> observed c `prefix_of` all /\ ended c <> Some Done.
Proof.
  intros [(rest & Hp & Hst & Hcr & He & Hall) | (Hp & Hst & Hq & Hpre & He)].
  - split; [rewrite Hall; by apply prefix_app_r | congruence].
  - done.
Qed.

Lemma aborts_finished e all c :
  aborts e all c -> finished c -> ended c = Some Failed.
Proof.
  destruct c as [p [q st cr] obs en].
  intros [(rest & Hp & Hst & Hcr & He & Hall) | (Hp & Hst & Hq & Hpre & He)] Hf;
    cbn [pending stream observed ended queue state closeRequested] in *; subst.
  - exfalso. destruct rest; cbn in Hf; eapply Hf; constructor.
  - destruct Hp as [-> | ->]; [exfalso; eapply Hf; constructor|].
    destruct en as [[]|]; [done | done |]. exfalso. eapply Hf. constructor.
Qed.

End Aborts.

(** *** The two endings of a relayed reply *)

Lemma start_completing texts :
  start {| Gemini.increments := texts; Gemini.throws_at_end := false |}
  = (Enqueue <$> encoded texts) ++ [Close].
Proof. unfold start. cbn. by rewrite relay_enqueues. Qed.

Lemma start_failing texts :
  start {| Gemini.increments := texts; Gemini.throws_at_end := true |}
  = (Enqueue <$> encoded texts) ++ [ErrorCall UpstreamError; Close].
Proof. unfold start. cbn. by rewrite relay_enqueues. Qed.

Example hello_chunks :
  encoded ["Hel"; "lo"; "!"] = [encode "Hel"; encode "lo"; encode "!"]
  /\ List.concat (encoded ["Hel"; "lo"; "!"]) = encode "Hello!".
Proof. split; reflexivity. Qed.

(** C7: when the upstream yields its increments and completes, the relay
    enqueues the non-empty ones, each as a chunk of its own and in the
    order received, and then closes; however the reader's reads fall
    between the relay's calls, what it has received is always a prefix
    of those chunks, every run ends, and at the end it has received all
    of them, followed by the end of the stream, so that the bytes read
    are those of the increments written one after the other. *)
Theorem relay_delivers_in_order (texts : list string) :
  start {| Gemini.increments := texts; Gemini.throws_at_end := false |}
  = (Enqueue <$> encoded texts) ++ [Close]
  /\ List.concat (encoded texts) = encode (concatText texts)
  /\ (exists c,
        ReadableStream.reachable
          (start {| Gemini.increments := texts; Gemini.throws_at_end := false |}) c
        /\ ReadableStream.finished c)
  /\ (forall c,
        ReadableStream.reachable
          (start {| Gemini.increments := texts; Gemini.throws_at_end := false |}) c ->
        ReadableStream.observed c `prefix_of` encoded texts
        /\ ReadableStream.ended c <> Some ReadableStream.Failed
        /\ (ReadableStream.finished c ->
            ReadableStream.observed c = encoded texts
            /\ ReadableStream.ended c = Some ReadableStream.Done
            /\ List.concat (ReadableStream.observed c) = encode (concatText texts))).
Proof.
  split; [apply start_completing|]. split; [apply concat_encoded|].
  rewrite start_completing. split; [apply runs_to_end|].
  intros c Hrun.
  pose proof (completes_run _ _ _ (completes_initial (encoded texts)) Hrun) as Hinv.
  destruct (completes_observed _ _ Hinv) as [Hpre Hnf].
  split; [done|]. split; [done|]. intros Hf.
  destruct (completes_finished _ _ Hinv Hf) as [Hobs Hend].
  split; [done|]. split; [done|]. rewrite Hobs. apply concat_encoded.
Qed.

(** C8: when the upstream throws after its increments, POST has already
    answered with the stream, not with a JSON body; the reader receives
    a prefix of the chunks enqueued before the failure, its reading
    never ends normally, every run ends with the read that fails, and
    after that read nothing more is received. *)
Theorem midstream_failure_aborts
    (key : option string) (gen : list Gemini.Content -> throws Gemini.Stream)
    (req : Request) (enhancedMessages : list Message) (g : Gemini.Stream) :
  enhance req = inr enhancedMessages ->
  apiKeySet key = true ->
  gen (buildGoogleGenAIPrompt enhancedMessages) = inr g ->
  Gemini.throws_at_end g = true ->
  response (POST key gen req) = StreamResponse (start g)
  /\ (forall status body, response (POST key gen req) <> JsonResponse status body)
  /\ (exists c, ReadableStream.reachable (start g) c /\ ReadableStream.finished c)
  /\ (forall c,
        ReadableStream.reachable (start g) c ->
        ReadableStream.observed c `prefix_of` encoded (Gemini.increments g)
        /\ ReadableStream.ended c <> Some ReadableStream.Done
        /\ (ReadableStream.finished c ->
            ReadableStream.ended c = Some ReadableStream.Failed)
        /\ (forall c',
              ReadableStream.ended c = Some ReadableStream.Failed ->
              rtc ReadableStream.step c c' ->
              ReadableStream.ended c' = Some ReadableStream.Failed
              /\ ReadableStream.observed c' = ReadableStream.observed c)).
Proof.
  intros Henh Hkey Hgen Hthrows.
  rewrite (POST_streams key gen req enhancedMessages g Henh Hkey Hgen). cbn [response].
  split; [done|]. split; [done|]. split; [apply runs_to_end|].
  destruct g as [texts fails]. cbn in Hthrows. subst fails. cbn [Gemini.increments].
  rewrite start_failing. intros c Hrun.
  pose proof (aborts_run _ _ _ _ (aborts_initial UpstreamError (encoded texts)) Hrun)
    as Hinv.
  destruct (aborts_observed _ _ _ Hinv) as [Hpre Hnd].
  split; [done|]. split; [done|]. split.
  - by apply aborts_finished with (e := UpstreamError) (all := encoded texts).
  - intros c' He Hrun'. by apply run_after_end with (c := c).
Qed.

Lemma midstream_failure_aborts_witness :
  response (POST (Some "key") (answering broken)
                 {| messages := [userSays "Hi"]; files := FilesFalsy |})
  = StreamResponse (start broken).
Proof.
  apply (proj1 (midstream_failure_aborts (Some "key") (answering broken)
                  {| messages := [userSays "Hi"]; files := FilesFalsy |}
                  [userSays "Hi"] broken eq_refl eq_refl eq_refl eq_refl)).
Defined.

(** The chunk of [broken] is received when it is read before the failure,
    and lost when the failure comes first: [error()] empties the queue. *)
Example broken_chunk_delivered :
  exists c, ReadableStream.reachable (start broken) c
            /\ ReadableStream.finished c
            /\ ReadableStream.observed c = [encode "Hel"]
            /\ ReadableStream.ended c = Some ReadableStream.Failed.
Proof.
  eexists. split; [|split; [|split]].
  - unfold ReadableStream.reachable, ReadableStream.initial, ReadableStream.fresh.
    cbn [start broken Gemini.increments Gemini.throws_at_end relay String.eqb app].
    eapply rtc_l; [apply ReadableStream.step_call|]. cbn.
    eapply rtc_l; [apply ReadableStream.step_read_chunk|]. cbn.
    eapply rtc_l; [apply ReadableStream.step_call|]. cbn.
    eapply rtc_l; [apply ReadableStream.step_call|]. cbn.
    eapply rtc_l; [apply ReadableStream.step_read_failed|].
    apply rtc_refl.
  - intros c' Hs. inversion Hs.
  - reflexivity.
  - reflexivity.
Qed.

Example broken_chunk_lost :
  exists c, ReadableStream.reachable (start broken) c
            /\ ReadableStream.finished c
            /\ ReadableStream.observed c = []
            /\ ReadableStream.ended c = Some ReadableStream.Failed.
Proof.
  eexists. split; [|split; [|split]].
  - unfold ReadableStream.reachable, ReadableStream.initial, ReadableStream.fresh.
    cbn [start broken Gemini.increments Gemini.throws_at_end relay String.eqb app].
    eapply rtc_l; [apply ReadableStream.step_call|]. cbn.
    eapply rtc_l; [apply ReadableStream.step_call|]. cbn.
    eapply rtc_l; [apply ReadableStream.step_call|]. cbn.
    eapply rtc_l; [apply ReadableStream.step_read_failed|].
    apply rtc_refl.
  - intros c' Hs. inversion Hs.
  - reflexivity.
  - reflexivity.
Qed.


(** ** Malformed file lists *)

Section Malformed.

Lemma checkFile_malformed file :
  wellFormedFile file = false -> checkFile file = inl TypeError.
Proof.
  unfold wellFormedFile, checkFile.
  destruct (prop file "base64") as [e|b] eqn:Hb.
  - destruct file; cbn in Hb; try done. by injection Hb as <-.
  - destruct (prop file "type") as [e|t] eqn:Ht.
    + destruct file; cbn in Ht; try done.
    + cbn. destruct b as [[]|], t as [[]|]; done.
Qed.

Lemma checkFiles_malformed items :
  existsb (fun file => negb (wellFormedFile file)) items = true ->
  exists e, checkFiles items = inl e.
Proof.
  intros H. apply existsb_exists in H as (file & Hin & Hbad).
  apply negb_true_iff in Hbad.
  destruct (in_split _ _ Hin) as (before & after & ->).
  eapply checkFiles_app_throws, checkFile_malformed, Hbad.
Qed.

Lemma enhance_malformed msgs parsedFiles :
  malformedList parsedFiles = true ->
  exists e, enhance {| messages := msgs; files := FilesParsed parsedFiles |} = inl e.
Proof.
  intros H. unfold enhance. cbn [files messages].
  destruct parsedFiles as [| | |s|items|]; cbn [iterate mbind throws_bind throw mret throws_ret];
    try (by eexists).
  - destruct s as [|c s]; [done|]. cbn. by eexists.
  - destruct (checkFiles_malformed items H) as [e ->]. by eexists.
Qed.

End Malformed.

(** C9 as the spec words it fails when [files] parses to the empty JSON
    string, which is not a list: the loop has nothing to iterate over,
    nothing throws, and the provider is called. *)
Lemma empty_string_for_list_reaches_provider :
  POST (Some "key") (answering hello)
       {| messages := [userSays "Hi"]; files := FilesParsed (JStr "") |}
  = {| response := StreamResponse (start hello);
       upstream_calls :=
         [[ {| Gemini.role := "user";
               Gemini.parts := [Gemini.Text (CString "Hi")] |} ]] |}.
Proof. reflexivity. Qed.

(** C9, as the code has it: when [JSON.parse] rejects the files string,
    or returns [null], a boolean, a number, an object, a non-empty
    string, or an array with an element that is not an object with
    string [base64] and [type] fields, POST answers with the structured
    400 response and hands nothing to the provider. *)
Theorem malformed_file_list_rejected
    (key : option string) (gen : list Gemini.Content -> throws Gemini.Stream)
    (msgs : list Message) :
  POST key gen {| messages := msgs; files := FilesUnparseable |}
  = rejected 400 (EngineText SyntaxError) (Literal file_error_details) []
  /\ (forall parsedFiles,
        malformedList parsedFiles = true ->
        exists e,
          POST key gen {| messages := msgs; files := FilesParsed parsedFiles |}
          = rejected 400 (message e) (Literal file_error_details) []).
Proof.
  split; [reflexivity|]. intros parsedFiles H.
  destruct (enhance_malformed msgs parsedFiles H) as [e He].
  exists e. by apply POST_rejects.
Qed.

Example object_for_list_rejected :
  POST (Some "key") (answering hello)
       {| messages := [userSays "Hi"]; files := FilesParsed (JObj []) |}
  = rejected 400 (EngineText TypeError) (Literal file_error_details) [].
Proof. reflexivity. Qed.

Example element_without_type_rejected :
  POST (Some "key") (answering hello)
       {| messages := [userSays "Hi"];
          files := FilesParsed (JArr [JObj [("base64", JStr "AAAA")]]) |}
  = rejected 400 (EngineText TypeError) (Literal file_error_details) [].
Proof. reflexivity. Qed.

(** ** Clearing the history *)

Section ClearHistory.
Import Client.

Variable JSON_parse : string -> option (list ChatHistory).
Variable JSON_stringify : list ChatHistory -> string.

Lemma cleared_storage (ls : gmap string string) :
  delete CURRENT_CHAT_KEY (delete STORAGE_KEY ls) !! STORAGE_KEY = None
  /\ delete CURRENT_CHAT_KEY (delete STORAGE_KEY ls) !! CURRENT_CHAT_KEY = None.
Proof.
  split.
  - rewrite lookup_delete_ne by done. apply lookup_delete_eq.
  - apply lookup_delete_eq.
Qed.

Lemma getTruthy_None (ls : gmap string string) k : ls !! k = None -> getTruthy ls k = None.
Proof. unfold getTruthy. by intros ->. Qed.

Lemma reload_without_history now (ls : gmap string string) :
  ls !! STORAGE_KEY = None ->
  reload JSON_parse JSON_stringify now ls = (initialState, ls).
Proof.
  intros H. unfold reload, loadEffect. by rewrite (getTruthy_None _ _ H).
Qed.

Lemma loadHistory_without_history emptiesList (ls : gmap string string) :
  ls !! STORAGE_KEY = None ->
  loadHistory JSON_parse emptiesList ls [] = [].
Proof.
  intros H. unfold loadHistory. rewrite (getTruthy_None _ _ H). by destruct emptiesList.
Qed.

End ClearHistory.

(** C10: a confirmed [clearHistory] removes the stored sessions and the
    stored current-session id, and the auto-save effect that runs after
    it stores nothing; a page reloaded on that storage shows no session
    and no current session id and stores nothing back, and the sidebar,
    in either revision, loads an empty list.  An unconfirmed
    [clearHistory] changes nothing. *)
Theorem clear_history_forgets_sessions
    (JSON_parse : string -> option (list Client.ChatHistory))
    (JSON_stringify : list Client.ChatHistory -> string)
    (now : Z) (ls : gmap string string) (st : Client.State) :
  (Client.clearHistory true ls st).2 !! Client.STORAGE_KEY = None
  /\ (Client.clearHistory true ls st).2 !! Client.CURRENT_CHAT_KEY = None
  /\ Client.chatHistory (Client.clearHistory true ls st).1 = []
  /\ Client.currentChatId (Client.clearHistory true ls st).1 = None
  /\ Client.reload JSON_parse JSON_stringify now (Client.clearHistory true ls st).2
     = (Client.initialState, (Client.clearHistory true ls st).2)
  /\ Client.saveEffect JSON_stringify now (Client.clearHistory true ls st).2
                        (Client.clearHistory true ls st).1
     = Client.clearHistory true ls st
  /\ Client.chatHistory Client.initialState = []
  /\ Client.currentChatId Client.initialState = None
  /\ (forall emptiesList,
        Client.loadHistory JSON_parse emptiesList (Client.clearHistory true ls st).2 []
        = [])
  /\ Client.clearHistory false ls st = (st, ls).
Proof.
  cbn [Client.clearHistory fst snd].
  destruct (cleared_storage ls) as [Hs Hc].
  repeat split; try done.
  - by apply reload_without_history.
  - intros emptiesList. by apply loadHistory_without_history.
Qed.

(** * Further properties of the route *)

(** ** The size ceiling in characters *)

(** X1: a file passes [checkFileSize] exactly when its type does not
    start with [video/] and its base64 text, without the data-URL
    header, has at most 6291457 characters (4.5 MB decoded, the ceiling
    itself included). *)
Theorem size_check_threshold (b t : string) :
  valid (checkFileSize b t)
  = negb (startsWith t "video/") && (base64Length b <=? 6291457)%Z.
Proof.
  unfold checkFileSize. destruct (startsWith t "video/"); [done|]. cbn [negb andb].
  destruct (negb (Qle_bool (originalSizeMB b) 4.5)) eqn:E; cbn [valid]; symmetry.
  - apply exceeds_ceiling_test, exceeds_ceiling_bytes in E.
    rewrite originalSizeBytes_eq in E. apply Z.leb_gt.
    Z.div_mod_to_equations. lia.
  - apply Z.leb_le.
    destruct (Z.le_gt_cases (base64Length b) 6291457) as [Hle|Hgt]; [done|].
    exfalso. assert (Hbig : (4.5 < originalSizeMB b)%Q).
    { apply exceeds_ceiling_bytes. rewrite originalSizeBytes_eq.
      Z.div_mod_to_equations. lia. }
    apply exceeds_ceiling_test in Hbig. congruence.
Qed.

(** ** Data URLs *)

Section DataUrl.

Lemma append_assoc (s t u : string) : (s +:+ t) +:+ u = s +:+ (t +:+ u).
Proof.
  induction s as [|c s IH]; [done|].
  change (String c s +:+ t) with (String c (s +:+ t)).
  change (String c (s +:+ t) +:+ u) with (String c ((s +:+ t) +:+ u)).
  change (String c s +:+ (t +:+ u)) with (String c (s +:+ (t +:+ u))).
  by rewrite IH.
Qed.

Lemma prefix_append p r : String.prefix p (p +:+ r) = true.
Proof.
  induction p as [|c p IH]; [by destruct r|].
  change (String c p +:+ r) with (String c (p +:+ r)). cbn [String.prefix].
  by destruct (ascii_dec c c).
Qed.

Lemma drop_chars_append p r : drop_chars (String.length p) (p +:+ r) = r.
Proof.
  induction p as [|c p IH]; [done|].
  change (String c p +:+ r) with (String c (p +:+ r)). exact IH.
Qed.

Lemma chop_prefix_append p r : chop_prefix p (p +:+ r) = Some r.
Proof. unfold chop_prefix. by rewrite prefix_append, drop_chars_append. Qed.

Lemma skip_non_semicolon_append m r :
  has_char ";" m = false ->
  skip_non_semicolon (m +:+ String ";" r) = String ";" r.
Proof.
  induction m as [|c m IH]; [done|]. cbn [has_char].
  intros [Hc Hm]%orb_false_elim.
  change (String c m +:+ String ";" r) with (String c (m +:+ String ";" r)).
  cbn [skip_non_semicolon]. rewrite Hc. by apply IH.
Qed.

Lemma strip_data_url mime payload :
  mime <> "" -> has_char ";" mime = false ->
  strip_data_url_header (dataUrl mime payload) = payload.
Proof.
  intros Hne Hsemi. unfold strip_data_url_header, dataUrl.
  rewrite chop_prefix_append.
  destruct mime as [|c m]; [done|]. cbn [has_char] in Hsemi.
  change (String c m +:+ ";base64," +:+ payload)
    with (String c (m +:+ ";base64," +:+ payload)).
  apply orb_false_elim in Hsemi as [Hc Hm]. rewrite Hc.
  change (String c (m +:+ ";base64," +:+ payload))
    with (String c m +:+ String ";" ("base64," +:+ payload)).
  rewrite skip_non_semicolon_append by (cbn [has_char]; by rewrite Hc, Hm).
  change (String ";" ("base64," +:+ payload)) with (";base64," +:+ payload).
  by rewrite chop_prefix_append.
Qed.

(** No character of [s] is [c]. *)
Lemma has_char_get c s i : has_char c s = false -> String.get i s <> Some c.
Proof.
  revert i. induction s as [|a s IH]; intros i; cbn [has_char]; [by destruct i|].
  intros [Ha Hs]%orb_false_elim. destruct i as [|i]; cbn [String.get].
  - intros [= ->]. by rewrite Ascii.eqb_refl in Ha.
  - by apply IH.
Qed.

Lemma prefix_get p s i c :
  String.prefix p s = true -> String.get i p = Some c -> String.get i s = Some c.
Proof.
  revert s i. induction p as [|a p IH]; intros s i; [by destruct i|].
  destruct s as [|b s]; cbn [String.prefix]; [done|].
  destruct (ascii_dec a b) as [<-|]; [|done].
  intros Hp. destruct i as [|i]; cbn [String.get]; [done|]. by apply IH.
Qed.

(** A text without a comma cannot begin with the marker. *)
Lemma no_marker_at_start s :
  (forall i, i < 7 -> String.get i s <> Some ","%char) ->
  String.prefix "base64," s = false.
Proof.
  intros H. destruct (String.prefix "base64," s) eqn:E; [|done].
  exfalso. apply (H 6); [lia|]. by apply (prefix_get _ _ _ _ E).
Qed.

Lemma marker_not_inside c h r i :
  has_char "," (String c h) = false -> i < 7 ->
  String.get i (String c h +:+ "base64," +:+ r) <> Some ","%char.
Proof.
  intros Hh Hi. remember (String c h) as s eqn:Hs.
  assert (Hlen : 1 <= String.length s) by (subst s; cbn; lia). clear Hs c h.
  revert i Hi Hlen. induction s as [|a s IH]; intros i Hi Hlen; [cbn in Hlen; lia|].
  cbn [has_char] in Hh. apply orb_false_elim in Hh as [Ha Hs].
  change (String a s +:+ "base64," +:+ r) with (String a (s +:+ "base64," +:+ r)).
  destruct i as [|i]; cbn [String.get].
  - intros [= ->]. by rewrite Ascii.eqb_refl in Ha.
  - destruct s as [|b s].
    + change ("" +:+ "base64," +:+ r) with (String "b" (String "a" (String "s"
        (String "e" (String "6" (String "4" (String "," r))))))).
      do 6 (destruct i as [|i]; [cbn; discriminate|]). lia.
    + apply IH; [done | lia | cbn; lia].
Qed.

Lemma after_first_marker h r :
  has_char "," h = false ->
  after_first "base64," (h +:+ "base64," +:+ r) = Some r
  /\ includes (h +:+ "base64," +:+ r) "base64," = true.
Proof.
  induction h as [|c h IH]; intros Hh.
  - change ("" +:+ "base64," +:+ r) with ("base64," +:+ r). split.
    + destruct r; reflexivity.
    + destruct r; reflexivity.
  - assert (Hno : String.prefix "base64," (String c h +:+ "base64," +:+ r) = false).
    { apply no_marker_at_start. intros i Hi. by apply marker_not_inside. }
    cbn [has_char] in Hh. apply orb_false_elim in Hh as [_ Hh].
    destruct (IH Hh) as [IH1 IH2].
    change (String c h +:+ "base64," +:+ r) with (String c (h +:+ "base64," +:+ r)) in *.
    cbn [after_first includes]. by rewrite Hno, IH1, IH2.
Qed.

Lemma before_first_no_comma p :
  has_char "," p = false -> before_first "base64," p = p.
Proof.
  induction p as [|c p IH]; intros Hp; [done|].
  assert (Hno : String.prefix "base64," (String c p) = false).
  { apply no_marker_at_start. intros i _. by apply has_char_get. }
  cbn [before_first]. rewrite Hno.
  cbn [has_char] in Hp. apply orb_false_elim in Hp as [_ Hp]. by rewrite IH.
Qed.

Lemma has_char_append c s t :
  has_char c (s +:+ t) = has_char c s || has_char c t.
Proof.
  induction s as [|a s IH]; [done|].
  change (String a s +:+ t) with (String a (s +:+ t)). cbn [has_char].
  by rewrite IH, orb_assoc.
Qed.

End DataUrl.

(** X2: the size check does not count the data-URL header: for a
    non-empty MIME type without a semicolon, the length measured on
    [data:<mime>;base64,<payload>] is the length of the payload, and the
    decoded size is three quarters of it, rounded down. *)
Theorem header_not_counted (mime payload : string) :
  mime <> "" ->
  has_char ";" mime = false ->
  base64Length (dataUrl mime payload) = js_length payload
  /\ originalSizeBytes (dataUrl mime payload) = (3 * js_length payload / 4)%Z.
Proof.
  intros Hne Hsemi.
  assert (Hlen : base64Length (dataUrl mime payload) = js_length payload)
    by (unfold base64Length; by rewrite strip_data_url).
  split; [done|]. by rewrite originalSizeBytes_eq, Hlen.
Qed.

Lemma header_not_counted_witness :
  base64Length (dataUrl "image/png" "iVBORw0KGgo=") = js_length "iVBORw0KGgo=".
Proof.
  apply (proj1 (header_not_counted "image/png" "iVBORw0KGgo="
                  ltac:(discriminate) eq_refl)).
Defined.

(** X3: the data handed to the provider is the payload of the data URL:
    when neither the MIME type nor the payload holds a comma,
    [base64Data] of [data:<mime>;base64,<payload>] is the payload. *)
Theorem payload_extracted (mime payload : string) :
  has_char "," mime = false ->
  has_char "," payload = false ->
  base64Data (dataUrl mime payload) = payload.
Proof.
  intros Hm Hp. unfold dataUrl.
  change (";base64," +:+ payload) with (";" +:+ "base64," +:+ payload).
  rewrite <- (append_assoc mime ";"), <- (append_assoc "data:").
  assert (Hh : has_char "," ("data:" +:+ mime +:+ ";") = false).
  { by rewrite !has_char_append, Hm. }
  destruct (after_first_marker _ payload Hh) as [Hafter Hinc].
  unfold base64Data, split_1. rewrite Hinc, Hafter. cbn [fmap option_fmap option_map default].
  by rewrite before_first_no_comma.
Qed.

Lemma payload_extracted_witness :
  base64Data (dataUrl "image/png" "iVBORw0KGgo=") = "iVBORw0KGgo=".
Proof. apply (payload_extracted "image/png" "iVBORw0KGgo=" eq_refl eq_refl). Defined.

(** ** The MIME types that reach the provider *)

(** X4: [getMimeType] returns [image/png], [image/jpeg] or
    [application/pdf], or else the declared type when that starts with
    [video/]; for an attachment that passed the validation loop it is
    always one of the three. *)
Theorem mime_type_range (fileType payload : string) :
  (getMimeType fileType payload ∈ inlineMimeTypes
   \/ (startsWith fileType "video/" = true
       /\ getMimeType fileType payload = fileType))
  /\ (forall file a,
        checkFile file = inr a ->
        getMimeType (type a) (base64 a) ∈ inlineMimeTypes).
Proof.
  assert (Hrange : forall ft b,
             getMimeType ft b ∈ inlineMimeTypes
             \/ (startsWith ft "video/" = true /\ getMimeType ft b = ft)).
  { intros ft b. unfold getMimeType, inlineMimeTypes.
    destruct (startsWith ft "image/").
    { left. destruct (String.eqb ft "image/png"); set_solver. }
    destruct (String.eqb ft "application/pdf"); [left; set_solver|].
    destruct (startsWith ft "video/"); [by right|]. left.
    destruct (includes b "data:image/png"); [set_solver|].
    destruct (includes b "data:image/jpeg" || includes b "data:image/jpg");
      [set_solver|].
    destruct (includes b "data:application/pdf"); set_solver. }
  split; [apply Hrange|]. intros file a Hf.
  destruct (checkFile_view _ _ Hf) as (_ & _ & Hvalid).
  destruct (Hrange (type a) (base64 a)) as [H | [Hv _]]; [done|].
  unfold checkFileSize in Hvalid. by rewrite Hv in Hvalid.
Qed.

(** ** The provider is called at most once *)

(** X5: without an API key ([GEMINI_API_KEY] unset or empty) the
    provider is never called: a request whose attachment step fails is
    answered 400 as usual, any other one is answered 500 with the
    message that the key is not set. *)
Theorem missing_key_never_calls
    (key : option string) (gen : list Gemini.Content -> throws Gemini.Stream)
    (req : Request) :
  apiKeySet key = false ->
  upstream_calls (POST key gen req) = []
  /\ (forall enhancedMessages,
        enhance req = inr enhancedMessages ->
        POST key gen req
        = rejected 500 (Literal "Failed to process chat request")
                   (Literal "GEMINI_API_KEY is not set") [])
  /\ (forall e,
        enhance req = inl e ->
        POST key gen req = rejected 400 (message e) (Literal file_error_details) []).
Proof.
  intros Hkey. unfold POST. rewrite Hkey.
  destruct (enhance req) as [e|msgs]; repeat split; intros; simplify_eq; done.
Qed.

Lemma missing_key_never_calls_witness :
  upstream_calls (POST (Some "") (answering hello)
                       {| messages := [userSays "Hi"]; files := FilesFalsy |}) = [].
Proof.
  apply (proj1 (missing_key_never_calls (Some "") (answering hello)
                  {| messages := [userSays "Hi"]; files := FilesFalsy |} eq_refl)).
Defined.

(** X6: POST hands at most one payload to the provider.  When the
    provider rejects the call the answer is the 500 response carrying
    the provider's message; the answer is a stream only when the
    attachment step passed and the provider accepted the translated
    messages, and then the stream is the relay of that very reply. *)
Theorem provider_called_at_most_once
    (key : option string) (gen : list Gemini.Content -> throws Gemini.Stream)
    (req : Request) :
  length (upstream_calls (POST key gen req)) <= 1
  /\ (forall enhancedMessages e,
        enhance req = inr enhancedMessages ->
        apiKeySet key = true ->
        gen (buildGoogleGenAIPrompt enhancedMessages) = inl e ->
        POST key gen req
        = rejected 500 (Literal "Failed to process chat request") (message e)
                   [buildGoogleGenAIPrompt enhancedMessages])
  /\ (forall calls,
        response (POST key gen req) = StreamResponse calls ->
        exists enhancedMessages g,
          enhance req = inr enhancedMessages
          /\ apiKeySet key = true
          /\ gen (buildGoogleGenAIPrompt enhancedMessages) = inr g
          /\ calls = start g
          /\ upstream_calls (POST key gen req)
             = [buildGoogleGenAIPrompt enhancedMessages]).
Proof.
  unfold POST. destruct (enhance req) as [e|msgs].
  - split; [cbn; lia|]. split; [by intros ? ? [=]|]. cbn. by intros ? [=].
  - destruct (apiKeySet key).
    + destruct (gen (buildGoogleGenAIPrompt msgs)) as [e|g] eqn:Hg.
      * split; [cbn; lia|]. split; [|unfold rejected; cbn; by intros ? [=]].
        intros ? ? [= <-] _ Hg'. congruence.
      * split; [cbn; lia|]. split; [intros ? ? [= <-] _ ?; congruence|].
        cbn. intros calls [= <-]. by exists msgs, g.
    + split; [cbn; lia|]. split; [by intros ? ? _ [=]|]. cbn. by intros ? [=].
Qed.

(** X7: the file list is checked in order and the first attachment that
    fails decides the answer: the attachments after it are not looked
    at. *)
Theorem first_failing_attachment_decides
    (key : option string) (gen : list Gemini.Content -> throws Gemini.Stream)
    (msgs : list Message) (before : list json) (checked : list AttachedFile)
    (file : json) (e : exn) (after : list json) :
  checkFiles before = inr checked ->
  checkFile file = inl e ->
  POST key gen {| messages := msgs;
                  files := FilesParsed (JArr (before ++ file :: after)) |}
  = rejected 400 (message e) (Literal file_error_details) [].
Proof.
  intros Hb Hf. apply POST_rejects, enhance_array_throws.
  by eapply checkFiles_first_failure.
Qed.

Lemma first_failing_attachment_decides_witness :
  POST (Some "key") (answering hello)
       {| messages := [userSays "Hi"];
          files := FilesParsed
                     (JArr ([attachment "a.png" "image/png" "iVBORw0KGgo="]
                            ++ attachment "clip.mp4" "video/mp4" "AAAA"
                            :: [JNull; attachment "b.png" "image/png" big_payload])) |}
  = rejected 400 (message (Error video_error)) (Literal file_error_details) [].
Proof.
  apply (first_failing_attachment_decides (Some "key") (answering hello)
           [userSays "Hi"] [attachment "a.png" "image/png" "iVBORw0KGgo="]
           [{| base64 := "iVBORw0KGgo="; type := "image/png" |}]
           (attachment "clip.mp4" "video/mp4" "AAAA") (Error video_error)
           [JNull; attachment "b.png" "image/png" big_payload]).
  - vm_compute. reflexivity.
  - reflexivity.
Defined.

(** ** Which messages are translated, and how *)

Section MoreTranslation.

Lemma convertMessage_unrelayed m : isRelayed m = false -> convertMessage m = [].
Proof.
  unfold isRelayed, convertMessage. intros [-> ->]%orb_false_elim. done.
Qed.

Lemma convertMessage_relayed m :
  isRelayed m = true ->
  exists c, convertMessage m = [c]
            /\ (Gemini.role c = "user"
                \/ (Gemini.role c = "model"
                    /\ exists t, Gemini.parts c = [Gemini.Text t])).
Proof.
  unfold isRelayed, convertMessage. destruct (String.eqb (role m) "user").
  - intros _. eexists. split; [done|]. by left.
  - cbn. intros ->. eexists. split; [done|]. right. split; [done|]. by eexists.
Qed.

Lemma fileParts_converted fs : fileParts fs ≫= convertPart = inlineOf <$> fs.
Proof. induction fs as [|f fs IH]; [done|]. cbn. by rewrite <- IH. Qed.

Lemma convertMessage_withFiles m text fs :
  role m = "user" -> content m = CString text ->
  convertMessage (withFiles m fs)
  = [ {| Gemini.role := "user";
         Gemini.parts := (if String.eqb text "" then []
                          else [Gemini.Text (CString text)])
                         ++ (inlineOf <$> fs) |} ].
Proof.
  intros Hr Hc. unfold convertMessage, withFiles. cbn [role content].
  rewrite Hr, Hc. cbn [String.eqb Ascii.eqb Bool.eqb truthy userParts].
  destruct (String.eqb text ""); cbn [negb]; cbn; by rewrite fileParts_converted.
Qed.

End MoreTranslation.




(** X10: attachments need a user message to go to.  When the history
    has none, a list of attachments that passes validation is dropped
    and the request is handled as if it carried no files; an empty list
    is handled that way for every history. *)
Theorem attachments_without_user_message_dropped
    (key : option string) (gen : list Gemini.Content -> throws Gemini.Stream)
    (msgs : list Message) (items : list json) (checked : list AttachedFile) :
  findLastIndex isUser msgs = None ->
  checkFiles items = inr checked ->
  POST key gen {| messages := msgs; files := FilesParsed (JArr items) |}
  = POST key gen {| messages := msgs; files := FilesFalsy |}
  /\ (forall history,
        POST key gen {| messages := history; files := FilesParsed (JArr []) |}
        = POST key gen {| messages := history; files := FilesFalsy |}).
Proof.
  intros Hnone Hfiles. split.
  2:{ intros history. unfold POST.
      rewrite (enhance_array_passes history [] [] eq_refl).
      unfold attachFiles. by destruct (findLastIndex isUser history). }
  unfold POST. rewrite (enhance_array_passes _ _ _ Hfiles).
  unfold attachFiles. rewrite Hnone. done.
Qed.

Lemma attachments_without_user_message_dropped_witness :
  POST (Some "key") (answering hello)
       {| messages := [assistantSays "Hello"];
          files := FilesParsed (JArr [attachment "a.png" "image/png" "iVBORw0KGgo="]) |}
  = POST (Some "key") (answering hello)
         {| messages := [assistantSays "Hello"]; files := FilesFalsy |}.
Proof.
  apply (proj1 (attachments_without_user_message_dropped (Some "key") (answering hello)
                  [assistantSays "Hello"]
                  [attachment "a.png" "image/png" "iVBORw0KGgo="]
                  [{| base64 := "iVBORw0KGgo="; type := "image/png" |}]
                  eq_refl ltac:(vm_compute; reflexivity))).
Defined.

(** * Properties of the client *)

(** ** A turn, from the form to the chat *)

Section Turns.

Variable trim : string -> string.

Lemma append_empty_r (s : string) : s +:+ "" = s.
Proof.
  induction s as [|c s IH]; [done|].
  change (String c s +:+ "") with (String c (s +:+ "")). by rewrite IH.
Qed.

Lemma decode_app (a b : list byte) :
  Client.decode (a ++ b) = Client.decode a +:+ Client.decode b.
Proof.
  unfold Client.decode. induction a as [|x a IH]; [done|].
  cbn [app string_of_list_byte]. unfold string_of_list_byte in *. cbn.
  change (String (ascii_of_byte x) (string_of_list_ascii (map ascii_of_byte a))
          +:+ string_of_list_ascii (map ascii_of_byte b))
    with (String (ascii_of_byte x)
            (string_of_list_ascii (map ascii_of_byte a)
             +:+ string_of_list_ascii (map ascii_of_byte b))).
  by rewrite IH.
Qed.

Lemma fullContent_concat chunks :
  Client.fullContent chunks = Client.decode (List.concat chunks).
Proof.
  unfold Client.fullContent.
  assert (H : forall acc,
             foldl (fun acc value => acc +:+ Client.decode value) acc chunks
             = acc +:+ Client.decode (List.concat chunks)).
  { induction chunks as [|v chunks IH]; intros acc; cbn [foldl List.concat].
    - by rewrite append_empty_r.
    - by rewrite IH, decode_app, append_assoc. }
  by rewrite H.
Qed.

Lemma decode_encode text : Client.decode (encode text) = text.
Proof. apply string_of_list_byte_of_string. Qed.

Lemma handleSubmit_busy sent answered fetched t :
  Client.isIdle trim t = false ->
  Client.handleSubmit trim sent answered fetched t
  = match fetched with
    | Client.ReadAll chunks =>
        {| Client.turn_messages :=
             (Client.turn_messages t
              ++ [Client.newMessage "user-" sent "user" (Client.turn_input t)])
             ++ [Client.newMessage "assistant-" answered "assistant"
                                   (Client.fullContent chunks)];
           Client.turn_input := "";
           Client.turn_files := [];
           Client.turn_streaming := "" |}
    | Client.NotOk status =>
        {| Client.turn_messages :=
             (Client.turn_messages t
              ++ [Client.newMessage "user-" sent "user" (Client.turn_input t)])
             ++ [Client.newMessage "error-" answered "assistant"
                                   ("HTTP error! status: " +:+ pretty status)];
           Client.turn_input := "";
           Client.turn_files := Client.turn_files t;
           Client.turn_streaming := "" |}
    | Client.Threw chunks message =>
        {| Client.turn_messages :=
             (Client.turn_messages t
              ++ [Client.newMessage "user-" sent "user" (Client.turn_input t)])
             ++ [Client.newMessage "error-" answered "assistant"
                                   (if Client.nonEmpty message then message
                                    else Client.defaultErrorText)];
           Client.turn_input := "";
           Client.turn_files := Client.turn_files t;
           Client.turn_streaming := Client.streamed chunks |}
    end.
Proof.
  unfold Client.isIdle, Client.handleSubmit.
  destruct (String.eqb (trim (Client.turn_input t)) ""), (Client.turn_files t);
    by destruct fetched.
Qed.

Lemma checkFiles_of_client fs :
  Forall (fun f => valid (checkFileSize (Client.file_base64 f) (Client.file_type f)) = true)
         fs ->
  checkFiles (toJson <$> fs) = inr (toChecked <$> fs).
Proof.
  induction 1 as [|f fs Hf _ IH]; [done|].
  cbn [fmap list_fmap checkFiles]. fold (toJson <$> fs). fold (toChecked <$> fs).
  rewrite IH. unfold checkFile, toJson. cbn. by rewrite Hf.
Qed.

Lemma default_last_cons {A} (x a : A) (l : list A) :
  default a (last (x :: l)) = default x (last l).
Proof.
  revert x a. induction l as [|y l IH]; intros x a; [done|].
  change (last (x :: y :: l)) with (last (y :: l)). by rewrite !IH.
Qed.

Lemma streamed_last chunks :
  Client.streamed chunks = default "" (last (Client.decode <$> chunks)).
Proof.
  unfold Client.streamed. generalize "". 
  induction chunks as [|v chunks IH]; intros acc; [done|].
  cbn [foldl fmap list_fmap]. fold (Client.decode <$> chunks).
  by rewrite IH, default_last_cons.
Qed.

Lemma findLastIndex_last {A} (p : A -> bool) l x :
  p x = true -> findLastIndex p (l ++ [x]) = Some (length l).
Proof. intros Hx. by apply findLastIndex_middle. Qed.

End Turns.

(** X11: a completed reply reaches the chat whole.  When the route
    streams a reply that completes and the client has read the body to
    its end, [handleSubmit] appends the user message and one assistant
    message whose content is the increments of the provider written one
    after the other, empties the input and drops the attached files. *)
Theorem completed_reply_reaches_chat
    (trim : string -> string)
    (key : option string) (gen : list Gemini.Content -> throws Gemini.Stream)
    (sent answered : Z) (t : Client.Turn) (enhancedMessages : list Message)
    (texts : list string) (c : ReadableStream.Config) (failure : string) :
  Client.isIdle trim t = false ->
  enhance (requestBody sent t) = inr enhancedMessages ->
  apiKeySet key = true ->
  gen (buildGoogleGenAIPrompt enhancedMessages)
  = inr {| Gemini.increments := texts; Gemini.throws_at_end := false |} ->
  ReadableStream.reachable
    (start {| Gemini.increments := texts; Gemini.throws_at_end := false |}) c ->
  ReadableStream.finished c ->
  exists fetched,
    seenByClient (response (POST key gen (requestBody sent t))) c failure = Some fetched
    /\ Client.handleSubmit trim sent answered fetched t
       = {| Client.turn_messages :=
              (Client.turn_messages t
               ++ [Client.newMessage "user-" sent "user" (Client.turn_input t)])
              ++ [Client.newMessage "assistant-" answered "assistant"
                                    (concatText texts)];
            Client.turn_input := "";
            Client.turn_files := [];
           Client.turn_streaming := "" |}.
Proof.
  intros Hbusy Henh Hkey Hgen Hrun Hend.
  rewrite (POST_streams key gen _ _ _ Henh Hkey Hgen). cbn [response seenByClient].
  rewrite start_completing in Hrun.
  pose proof (completes_run _ _ _ (completes_initial (encoded texts)) Hrun) as Hinv.
  destruct (completes_finished _ _ Hinv Hend) as [Hobs Hdone].
  rewrite Hdone, Hobs. eexists. split; [done|].
  rewrite (handleSubmit_busy trim _ _ _ _ Hbusy).
  by rewrite fullContent_concat, concat_encoded, decode_encode.
Qed.

Lemma helloRead_reachable : ReadableStream.reachable (start hello) helloRead.
Proof.
  unfold ReadableStream.reachable, ReadableStream.initial, ReadableStream.fresh.
  cbn [start hello Gemini.increments Gemini.throws_at_end relay String.eqb app].
  eapply rtc_l; [apply ReadableStream.step_call|]. cbn.
  eapply rtc_l; [apply ReadableStream.step_read_chunk|]. cbn.
  eapply rtc_l; [apply ReadableStream.step_call|]. cbn.
  eapply rtc_l; [apply ReadableStream.step_call|]. cbn.
  eapply rtc_l; [apply ReadableStream.step_call|]. cbn.
  eapply rtc_l; [apply ReadableStream.step_read_chunk|]. cbn.
  eapply rtc_l; [apply ReadableStream.step_read_chunk|]. cbn.
  eapply rtc_l; [apply ReadableStream.step_read_done|].
  apply rtc_refl.
Qed.

Lemma helloRead_finished : ReadableStream.finished helloRead.
Proof. intros c' Hs. inversion Hs. Qed.

Lemma completed_reply_reaches_chat_witness :
  exists fetched,
    seenByClient
      (response (POST (Some "key") (answering hello) (requestBody 5 typedHi)))
      helloRead ""
    = Some fetched
    /\ Client.handleSubmit (fun s => s) 5 7 fetched typedHi
       = {| Client.turn_messages :=
              (Client.turn_messages typedHi
               ++ [Client.newMessage "user-" 5 "user" (Client.turn_input typedHi)])
              ++ [Client.newMessage "assistant-" 7 "assistant"
                                    (concatText ["Hel"; "lo"; "!"])];
            Client.turn_input := "";
            Client.turn_files := [];
           Client.turn_streaming := "" |}.
Proof.
  apply (completed_reply_reaches_chat (fun s => s) (Some "key") (answering hello)
           5 7 typedHi
           [toServerMessage (Client.newMessage "user-" 5 "user" "Hi")]
           ["Hel"; "lo"; "!"] helloRead ""
           eq_refl eq_refl eq_refl eq_refl helloRead_reachable helloRead_finished).
Defined.

(** X12: an answer of the route that is not a stream reaches the chat as
    its status only.  Such an answer has status 400 or 500, and
    [handleSubmit] then appends the user message and an assistant
    message reading [HTTP error! status: ] followed by the status: the
    error text and the details of the body are not shown; the attached
    files are kept. *)
Theorem rejection_shown_as_status
    (trim : string -> string)
    (key : option string) (gen : list Gemini.Content -> throws Gemini.Stream)
    (sent answered : Z) (t : Client.Turn) (status : Z) (body : ErrorBody)
    (c : ReadableStream.Config) (failure : string) :
  Client.isIdle trim t = false ->
  response (POST key gen (requestBody sent t)) = JsonResponse status body ->
  (status = 400%Z \/ status = 500%Z)
  /\ seenByClient (JsonResponse status body) c failure = Some (Client.NotOk status)
  /\ Client.handleSubmit trim sent answered (Client.NotOk status) t
     = {| Client.turn_messages :=
            (Client.turn_messages t
             ++ [Client.newMessage "user-" sent "user" (Client.turn_input t)])
            ++ [Client.newMessage "error-" answered "assistant"
                                  ("HTTP error! status: " +:+ pretty status)];
          Client.turn_input := "";
          Client.turn_files := Client.turn_files t;
          Client.turn_streaming := "" |}.
Proof.
  intros Hbusy Hresp.
  assert (Hstatus : status = 400%Z \/ status = 500%Z).
  { revert Hresp. unfold POST, rejected.
    destruct (enhance _) as [e|msgs]; cbn; [intros [= <- _]; by left|].
    destruct (apiKeySet key); cbn; [|intros [= <- _]; by right].
    destruct (gen _); cbn; [intros [= <- _]; by right | done]. }
  split; [done|]. split.
  - by destruct Hstatus as [-> | ->].
  - by rewrite (handleSubmit_busy trim _ _ _ _ Hbusy).
Qed.

Lemma rejection_shown_as_status_witness :
  Client.handleSubmit (fun s => s) 5 7 (Client.NotOk 500) typedHi
  = {| Client.turn_messages :=
         (Client.turn_messages typedHi
          ++ [Client.newMessage "user-" 5 "user" (Client.turn_input typedHi)])
         ++ [Client.newMessage "error-" 7 "assistant"
                               ("HTTP error! status: " +:+ pretty 500%Z)];
       Client.turn_input := "";
       Client.turn_files := Client.turn_files typedHi;
       Client.turn_streaming := "" |}.
Proof.
  apply (proj2 (proj2 (rejection_shown_as_status (fun s => s) None (answering hello)
                         5 7 typedHi 500
                         {| body_error := Literal "Failed to process chat request";
                            body_details := Literal "GEMINI_API_KEY is not set" |}
                         helloRead "" eq_refl eq_refl))).
Defined.

(** X13: a reply that fails in mid-stream is stored in no message, but
    its last chunk stays in [streamingContent].  When the reading of a
    failing stream has ended, [handleSubmit] appends the user message
    and an assistant message holding the message of the failure (the
    default text when that is empty) and keeps the attached files; the
    chunks received, a prefix of those the relay enqueued, go to no
    message, and [streamingContent], which the catch path does not
    empty, is left at the text of the last chunk received (empty when
    none was). *)
Theorem failed_reply_not_stored
    (trim : string -> string)
    (key : option string) (gen : list Gemini.Content -> throws Gemini.Stream)
    (sent answered : Z) (t : Client.Turn) (enhancedMessages : list Message)
    (g : Gemini.Stream) (c : ReadableStream.Config) (failure : string) :
  Client.isIdle trim t = false ->
  enhance (requestBody sent t) = inr enhancedMessages ->
  apiKeySet key = true ->
  gen (buildGoogleGenAIPrompt enhancedMessages) = inr g ->
  Gemini.throws_at_end g = true ->
  ReadableStream.reachable (start g) c ->
  ReadableStream.finished c ->
  ReadableStream.observed c `prefix_of` encoded (Gemini.increments g)
  /\ seenByClient (response (POST key gen (requestBody sent t))) c failure
     = Some (Client.Threw (ReadableStream.observed c) failure)
  /\ Client.handleSubmit trim sent answered
                         (Client.Threw (ReadableStream.observed c) failure) t
     = {| Client.turn_messages :=
            (Client.turn_messages t
             ++ [Client.newMessage "user-" sent "user" (Client.turn_input t)])
            ++ [Client.newMessage "error-" answered "assistant"
                                  (if Client.nonEmpty failure then failure
                                   else Client.defaultErrorText)];
          Client.turn_input := "";
          Client.turn_files := Client.turn_files t;
          Client.turn_streaming :=
            default "" (last (Client.decode <$> ReadableStream.observed c)) |}.
Proof.
  intros Hbusy Henh Hkey Hgen Hthrows Hrun Hend.
  rewrite (POST_streams key gen _ _ _ Henh Hkey Hgen). cbn [response seenByClient].
  destruct g as [texts fails]. cbn in Hthrows. subst fails.
  cbn [Gemini.increments]. rewrite start_failing in Hrun.
  pose proof (aborts_run _ _ _ _ (aborts_initial UpstreamError (encoded texts)) Hrun)
    as Hinv.
  destruct (aborts_observed _ _ _ Hinv) as [Hpre _].
  rewrite (aborts_finished _ _ _ Hinv Hend).
  split; [done|]. split; [done|].
  by rewrite (handleSubmit_busy trim _ _ _ _ Hbusy), streamed_last.
Qed.

Lemma brokenRead_reachable : ReadableStream.reachable (start broken) brokenRead.
Proof.
  unfold ReadableStream.reachable, ReadableStream.initial, ReadableStream.fresh.
  cbn [start broken Gemini.increments Gemini.throws_at_end relay String.eqb app].
  eapply rtc_l; [apply ReadableStream.step_call|]. cbn.
  eapply rtc_l; [apply ReadableStream.step_read_chunk|]. cbn.
  eapply rtc_l; [apply ReadableStream.step_call|]. cbn.
  eapply rtc_l; [apply ReadableStream.step_call|]. cbn.
  eapply rtc_l; [apply ReadableStream.step_read_failed|].
  apply rtc_refl.
Qed.

Lemma brokenRead_finished : ReadableStream.finished brokenRead.
Proof. intros c' Hs. inversion Hs. Qed.

Lemma failed_reply_not_stored_witness :
  Client.handleSubmit (fun s => s) 5 7
                      (Client.Threw (ReadableStream.observed brokenRead)
                                    "network error")
                      typedHi
  = {| Client.turn_messages :=
         (Client.turn_messages typedHi
          ++ [Client.newMessage "user-" 5 "user" (Client.turn_input typedHi)])
         ++ [Client.newMessage "error-" 7 "assistant"
                               (if Client.nonEmpty "network error"
                                then "network error"
                                else Client.defaultErrorText)];
       Client.turn_input := "";
       Client.turn_files := Client.turn_files typedHi;
       Client.turn_streaming :=
         default "" (last (Client.decode <$> ReadableStream.observed brokenRead)) |}.
Proof.
  apply (proj2 (proj2 (failed_reply_not_stored (fun s => s) (Some "key")
                         (answering broken) 5 7 typedHi
                         [toServerMessage (Client.newMessage "user-" 5 "user" "Hi")]
                         broken brokenRead "network error"
                         eq_refl eq_refl eq_refl eq_refl eq_refl
                         brokenRead_reachable brokenRead_finished))).
Defined.

(** After the failure of [broken] with its chunk read, that chunk is
    what [streamingContent] still holds. *)
Example broken_chunk_stays_on_screen :
  default "" (last (Client.decode <$> ReadableStream.observed brokenRead)) = "Hel".
Proof. reflexivity. Qed.

(** X14: the files attached to a turn go to the message of that turn.
    When every attached file passes the size check, the attachment step
    of the route, run on the body the client posts, leaves the earlier
    messages as they are and gives the new user message, under its id
    and role, a content made of its text as a text part (none when the
    text is empty) followed by one image part per attached file, in
    order, each with the file's base64 text and declared type. *)
Theorem files_attached_to_new_message
    (sent : Z) (t : Client.Turn) (f : Client.AttachedFile)
    (fs : list Client.AttachedFile) :
  Client.turn_files t = f :: fs ->
  Forall (fun f => valid (checkFileSize (Client.file_base64 f) (Client.file_type f)) = true)
         (f :: fs) ->
  enhance (requestBody sent t)
  = inr ((toServerMessage <$> Client.turn_messages t)
         ++ [ {| id := "user-" +:+ pretty sent;
                 role := "user";
                 content :=
                   CArray
                     ((if String.eqb (Client.turn_input t) "" then []
                       else [TextPart (CString (Client.turn_input t))])
                      ++ ((fun file =>
                             ImagePart (Client.file_base64 file)
                                       (Some (Client.file_type file)))
                          <$> f :: fs)) |} ]).
Proof.
  intros Hfiles Hvalid. unfold requestBody. rewrite Hfiles.
  rewrite (enhance_array_passes _ _ _ (checkFiles_of_client _ Hvalid)).
  rewrite fmap_app. cbn [fmap list_fmap].
  rewrite attachFiles_middle by done. do 3 f_equal.
  unfold withFiles, toServerMessage, Client.newMessage, fileParts. cbn.
  f_equal. f_equal.
  assert (Hparts : forall l : list Client.AttachedFile,
             (fun file => ImagePart (base64 file) (Some (type file)))
             <$> (toChecked <$> l)
             = (fun file => ImagePart (Client.file_base64 file)
                                      (Some (Client.file_type file))) <$> l).
  { intros l. by rewrite <- list_fmap_compose. }
  destruct (String.eqb (Client.turn_input t) ""); cbn [negb app];
    f_equal; apply (Hparts (_ :: _)) || apply Hparts.
Qed.

Lemma files_attached_to_new_message_witness :
  enhance (requestBody 5 typedHiWithChart)
  = inr ((toServerMessage <$> Client.turn_messages typedHiWithChart)
         ++ [ {| id := "user-" +:+ pretty 5%Z;
                 role := "user";
                 content :=
                   CArray
                     ((if String.eqb (Client.turn_input typedHiWithChart) "" then []
                       else [TextPart (CString (Client.turn_input typedHiWithChart))])
                      ++ ((fun file =>
                             ImagePart (Client.file_base64 file)
                                       (Some (Client.file_type file)))
                          <$> chartFile :: [])) |} ]).
Proof.
  apply (files_attached_to_new_message 5 typedHiWithChart chartFile [] eq_refl).
  repeat constructor.
Defined.

(** ** The stored history *)

Section History.
Import Client.

Lemma insertByRecency_perm x l : insertByRecency x l ≡ₚ x :: l.
Proof.
  induction l as [|y l IH]; [done|]. cbn [insertByRecency].
  destruct (timestamp y <=? timestamp x)%Z; [done|].
  rewrite IH. apply Permutation_swap.
Qed.

Lemma sortByRecency_perm l : sortByRecency l ≡ₚ l.
Proof.
  induction l as [|x l IH]; [done|].
  cbn [sortByRecency foldr]. fold (sortByRecency l).
  by rewrite insertByRecency_perm, IH.
Qed.

Lemma insertByRecency_sorted x l : recentFirst l -> recentFirst (insertByRecency x l).
Proof.
  unfold recentFirst. induction 1 as [|y l Hl IH Hy]; cbn [insertByRecency].
  - repeat constructor.
  - destruct (timestamp y <=? timestamp x)%Z eqn:E.
    + apply Z.leb_le in E. constructor; [by constructor|].
      constructor; [done|]. eapply Forall_impl; [exact Hy|]. cbn. lia.
    + apply Z.leb_gt in E. constructor; [done|].
      rewrite (insertByRecency_perm x l). constructor; [lia | done].
Qed.

Lemma sortByRecency_sorted l : recentFirst (sortByRecency l).
Proof.
  induction l as [|x l IH]; [constructor|].
  cbn [sortByRecency foldr]. by apply insertByRecency_sorted.
Qed.

Lemma sortByRecency_fixes l : recentFirst l -> sortByRecency l = l.
Proof.
  unfold recentFirst. induction 1 as [|x l Hl IH Hx]; [done|].
  cbn [sortByRecency foldr]. fold (sortByRecency l). rewrite IH.
  destruct Hx as [|y l Hy _]; [done|]. cbn [insertByRecency].
  apply Z.leb_le in Hy. by rewrite Hy.
Qed.

Lemma find_unique {A} (p : A -> bool) (l : list A) x :
  x ∈ l -> p x = true -> (forall y, y ∈ l -> p y = true -> y = x) ->
  List.find p l = Some x.
Proof.
  induction l as [|a l IH]; intros Hin Hp Huniq; [by apply elem_of_nil in Hin|].
  cbn [List.find]. destruct (p a) eqn:Ha.
  - f_equal. apply Huniq; [by left | done].
  - apply IH; [|done|].
    + apply elem_of_cons in Hin as [-> | Hin]; [congruence | done].
    + intros y Hy. apply Huniq. by right.
Qed.

Lemma pretty_N_go_nonempty x s : s <> "" -> pretty_N_go x s <> "".
Proof.
  revert s. induction (N.lt_wf_0 x) as [x _ IH]; intros s Hs.
  destruct (N.eq_dec x 0%N) as [->|Hx]; [by rewrite pretty_N_go_0|].
  rewrite pretty_N_go_step by lia. apply IH; [apply N.div_lt; lia | done].
Qed.

Lemma pretty_Z_nonempty (z : Z) : pretty z <> "".
Proof.
  assert (Hpos : forall p : positive, pretty p <> "").
  { intros p. unfold pretty, pretty_positive, pretty, pretty_N.
    destruct (decide (N.pos p = 0%N)); [done|].
    rewrite pretty_N_go_step by lia. by apply pretty_N_go_nonempty. }
  destruct z as [|p|p]; unfold pretty, pretty_Z; [done | apply Hpos |].
  destruct (pretty p) eqn:E; [by apply Hpos in E | done].
Qed.

Lemma chatIdAt_nonEmpty now st : nonEmpty (chatIdAt now st) = true.
Proof.
  assert (Hnow : nonEmpty (pretty now) = true).
  { unfold nonEmpty. apply negb_true_iff, String.eqb_neq, pretty_Z_nonempty. }
  unfold chatIdAt. destruct (currentChatId st) as [c|]; [|done].
  by destruct (nonEmpty c) eqn:E.
Qed.

Lemma getTruthy_insert (ls : gmap string string) k v :
  nonEmpty v = true -> getTruthy (<[k := v]> ls) k = Some v.
Proof. intros Hv. unfold getTruthy. by rewrite lookup_insert_eq, Hv. Qed.

Lemma getTruthy_insert_ne (ls : gmap string string) k k' v :
  k <> k' -> getTruthy (<[k := v]> ls) k' = getTruthy ls k'.
Proof. intros Hk. unfold getTruthy. by rewrite lookup_insert_ne. Qed.

Lemma getTruthy_delete_ne (ls : gmap string string) k k' :
  k <> k' -> getTruthy (delete k ls) k' = getTruthy ls k'.
Proof. intros Hk. unfold getTruthy. by rewrite lookup_delete_ne. Qed.

Lemma getTruthy_delete (ls : gmap string string) k : getTruthy (delete k ls) k = None.
Proof. unfold getTruthy. by rewrite lookup_delete_eq. Qed.

End History.

(** X15: the auto-save effect files the conversation once.  With at
    least one message, it makes the conversation the current one under
    its id, stores that id, and stores a history that is sorted most
    recent first and consists of the conversation as it is now, stamped
    with the time of saving, and of the stored conversations with other
    ids: an earlier version under the same id is replaced, not
    duplicated. *)
Theorem save_files_conversation_once
    (JSON_stringify : list Client.ChatHistory -> string)
    (now : Z) (ls : gmap string string) (st : Client.State)
    (m : Client.ChatMessage) (ms : list Client.ChatMessage) :
  Client.st_messages st = m :: ms ->
  exists updatedChat,
    Client.id updatedChat = chatIdAt now st
    /\ Client.timestamp updatedChat = now
    /\ Client.messages updatedChat = m :: ms
    /\ Client.st_messages (Client.saveEffect JSON_stringify now ls st).1 = m :: ms
    /\ Client.currentChatId (Client.saveEffect JSON_stringify now ls st).1
       = Some (chatIdAt now st)
    /\ Client.chatHistory (Client.saveEffect JSON_stringify now ls st).1
       ≡ₚ updatedChat
          :: List.filter (fun c => negb (String.eqb (Client.id c) (chatIdAt now st)))
                         (Client.chatHistory st)
    /\ recentFirst (Client.chatHistory (Client.saveEffect JSON_stringify now ls st).1)
    /\ (forall c,
          c ∈ Client.chatHistory (Client.saveEffect JSON_stringify now ls st).1 ->
          Client.id c = chatIdAt now st -> c = updatedChat)
    /\ (Client.saveEffect JSON_stringify now ls st).2
       = <[Client.CURRENT_CHAT_KEY := chatIdAt now st]>
           (<[Client.STORAGE_KEY :=
                JSON_stringify
                  (Client.chatHistory (Client.saveEffect JSON_stringify now ls st).1)]>
              ls).
Proof.
  intros Hm. unfold Client.saveEffect, chatIdAt. rewrite Hm.
  cbn [fst snd Client.st_messages Client.currentChatId Client.chatHistory].
  eexists {| Client.id := _; Client.title := _; Client.timestamp := now;
             Client.messages := m :: ms |}.
  cbn [Client.id Client.timestamp Client.messages].
  split; [reflexivity|]. do 4 (split; [reflexivity|]).
  split; [apply sortByRecency_perm|]. split; [apply sortByRecency_sorted|].
  split; [|reflexivity].
  intros c Hc Hid. rewrite sortByRecency_perm in Hc.
  apply elem_of_cons in Hc as [-> | Hc]; [done|].
  apply list_elem_of_In, filter_In in Hc as [_ Hc].
    apply negb_true_iff, String.eqb_neq in Hc. done.
Qed.

Lemma save_files_conversation_once_witness :
  exists updatedChat,
    Client.id updatedChat = chatIdAt 5 chatting
    /\ Client.timestamp updatedChat = 5%Z.
Proof.
  destruct (save_files_conversation_once (writingAs "[]") 5 ∅ chatting _ _ eq_refl)
    as (updatedChat & Hid & Htime & _).
  exists updatedChat. split; [exact Hid | exact Htime].
Defined.

(** ** Saving, reopening and starting conversations *)

Section Reopening.
Import Client.

Variable JSON_parse : string -> option (list ChatHistory).
Variable JSON_stringify : list ChatHistory -> string.

Lemma saveEffect_saved now (ls : gmap string string) st :
  st_messages st <> [] ->
  saveEffect JSON_stringify now ls st
  = ({| st_messages := st_messages st;
        currentChatId := Some (chatIdAt now st);
        chatHistory := savedHistory now st;
        isMobileMenuOpen := isMobileMenuOpen st |},
     <[CURRENT_CHAT_KEY := chatIdAt now st]>
       (<[STORAGE_KEY := JSON_stringify (savedHistory now st)]> ls)).
Proof.
  intros Hne. unfold saveEffect.
  destruct (st_messages st) as [|m ms] eqn:E; [done|].
  cbv beta iota zeta. rewrite <- E.
  unfold savedHistory, savedChat, chatIdAt. by rewrite E.
Qed.

Lemma savedChat_found now st :
  List.find (fun c => String.eqb (id c) (chatIdAt now st)) (savedHistory now st)
  = Some (savedChat now st).
Proof.
  apply find_unique.
  - unfold savedHistory. rewrite sortByRecency_perm. by left.
  - apply String.eqb_refl.
  - intros y Hy Hid. unfold savedHistory in Hy. rewrite sortByRecency_perm in Hy.
    apply elem_of_cons in Hy as [-> | Hy]; [done|].
    apply list_elem_of_In, filter_In in Hy as [_ Hy].
    by rewrite Hid in Hy.
Qed.

Lemma savedHistory_cons now st : exists c l, savedHistory now st = c :: l.
Proof.
  destruct (savedHistory now st) as [|c l] eqn:E; [|by eauto].
  pose proof (savedChat_found now st) as H. by rewrite E in H.
Qed.

(** The mount effect on a storage that holds a history and the id of
    one of its conversations. *)
Lemma loadEffect_reopens (ls : gmap string string) saved history chatId chat :
  getTruthy ls STORAGE_KEY = Some saved ->
  JSON_parse saved = Some history ->
  getTruthy ls CURRENT_CHAT_KEY = Some chatId ->
  List.find (fun c => String.eqb (id c) chatId) (sortByRecency history) = Some chat ->
  loadEffect JSON_parse ls initialState
  = {| st_messages := messages chat; currentChatId := Some (id chat);
       chatHistory := sortByRecency history; isMobileMenuOpen := false |}.
Proof.
  intros Hs Hp Hc Hf. unfold loadEffect. rewrite Hs, Hp, Hc.
  destruct (sortByRecency history) as [|c l] eqn:E; [done|]. by rewrite Hf.
Qed.

Lemma loadEffect_nothing_open (ls : gmap string string) :
  getTruthy ls CURRENT_CHAT_KEY = None ->
  loadEffect JSON_parse ls initialState
  = {| st_messages := []; currentChatId := None;
       chatHistory := storedHistory JSON_parse ls; isMobileMenuOpen := false |}.
Proof.
  intros Hc. unfold loadEffect, storedHistory. rewrite Hc.
  destruct (getTruthy ls STORAGE_KEY) as [saved|]; [|done].
  by destruct (JSON_parse saved).
Qed.

End Reopening.

(** X16: a saved conversation survives a reload.  When the text stored
    by the auto-save effect parses back to the history it was made
    from, the mount effect of a fresh page reopens the conversation:
    same messages, same id, same history. *)
Theorem saved_conversation_survives_reload
    (JSON_parse : string -> option (list Client.ChatHistory))
    (JSON_stringify : list Client.ChatHistory -> string)
    (now : Z) (ls : gmap string string) (st : Client.State) :
  Client.st_messages st <> [] ->
  JSON_stringify (savedHistory now st) <> "" ->
  JSON_parse (JSON_stringify (savedHistory now st)) = Some (savedHistory now st) ->
  Client.loadEffect JSON_parse (Client.saveEffect JSON_stringify now ls st).2
                    Client.initialState
  = {| Client.st_messages := Client.st_messages st;
       Client.currentChatId := Some (chatIdAt now st);
       Client.chatHistory := savedHistory now st;
       Client.isMobileMenuOpen := false |}.
Proof.
  intros Hne Htext Hparse. rewrite saveEffect_saved by done. cbn [snd].
  assert (Hfix : Client.sortByRecency (savedHistory now st) = savedHistory now st)
    by apply sortByRecency_fixes, sortByRecency_sorted.
  rewrite (loadEffect_reopens JSON_parse _ (JSON_stringify (savedHistory now st))
             (savedHistory now st) (chatIdAt now st) (savedChat now st)).
  - by rewrite Hfix.
  - rewrite getTruthy_insert_ne by done. apply getTruthy_insert.
    unfold Client.nonEmpty. by apply negb_true_iff, String.eqb_neq.
  - done.
  - apply getTruthy_insert, chatIdAt_nonEmpty.
  - rewrite Hfix. apply savedChat_found.
Qed.

Lemma saved_conversation_survives_reload_witness :
  Client.loadEffect (readingAs (savedHistory 5 chatting))
                    (Client.saveEffect (writingAs "[{}]") 5 ∅ chatting).2
                    Client.initialState
  = {| Client.st_messages := Client.st_messages chatting;
       Client.currentChatId := Some (chatIdAt 5 chatting);
       Client.chatHistory := savedHistory 5 chatting;
       Client.isMobileMenuOpen := false |}.
Proof.
  apply (saved_conversation_survives_reload (readingAs (savedHistory 5 chatting))
           (writingAs "[{}]") 5 ∅ chatting).
  - discriminate.
  - discriminate.
  - reflexivity.
Defined.

(** X17: starting a new chat forgets which conversation is open, not
    the conversations.  [startNewChat] removes the stored current id and
    leaves the stored history alone; the auto-save effect that follows
    stores nothing; a page reloaded then lists the stored history with no
    conversation open. *)
Theorem new_chat_keeps_history
    (JSON_parse : string -> option (list Client.ChatHistory))
    (JSON_stringify : list Client.ChatHistory -> string)
    (now : Z) (ls : gmap string string) (st : Client.State) :
  (Client.startNewChat ls st).2 !! Client.STORAGE_KEY = ls !! Client.STORAGE_KEY
  /\ (Client.startNewChat ls st).2 !! Client.CURRENT_CHAT_KEY = None
  /\ Client.chatHistory (Client.startNewChat ls st).1 = Client.chatHistory st
  /\ Client.st_messages (Client.startNewChat ls st).1 = []
  /\ Client.currentChatId (Client.startNewChat ls st).1 = None
  /\ Client.saveEffect JSON_stringify now (Client.startNewChat ls st).2
                       (Client.startNewChat ls st).1
     = Client.startNewChat ls st
  /\ Client.loadEffect JSON_parse (Client.startNewChat ls st).2 Client.initialState
     = {| Client.st_messages := []; Client.currentChatId := None;
          Client.chatHistory := storedHistory JSON_parse ls;
          Client.isMobileMenuOpen := false |}.
Proof.
  unfold Client.startNewChat. cbn [fst snd].
  split; [by rewrite lookup_delete_ne|]. split; [apply lookup_delete_eq|].
  do 4 (split; [reflexivity|]).
  rewrite loadEffect_nothing_open by apply getTruthy_delete.
  unfold storedHistory. by rewrite getTruthy_delete_ne.
Qed.


Lemma storing_truthy saved :
  Client.nonEmpty saved = true ->
  Client.getTruthy (storing saved) Client.STORAGE_KEY = Some saved.
Proof. intros H. by apply getTruthy_insert. Qed.


(** ** The sidebar *)

Section Sidebar.
Import Client.

Lemma recentFirst_app l1 l2 :
  recentFirst (l1 ++ l2) ->
  forall x y, x ∈ l1 -> y ∈ l2 -> (timestamp y <= timestamp x)%Z.
Proof.
  unfold recentFirst. induction l1 as [|a l1 IH]; intros Hs x y Hx Hy.
  - by apply elem_of_nil in Hx.
  - cbn in Hs. apply StronglySorted_inv in Hs as [Hs Ha].
    apply elem_of_cons in Hx as [-> | Hx]; [|by eapply IH].
    rewrite Forall_forall in Ha. apply Ha, elem_of_app. by right.
Qed.

Lemma recentFirst_take n l : recentFirst l -> recentFirst (take n l).
Proof.
  unfold recentFirst. intros Hs. revert n.
  induction Hs as [|a l Hs IH Ha]; intros [|n]; cbn; try constructor; [apply IH|].
  apply Forall_forall. intros x Hx. apply elem_of_take in Hx as (i & Hx & _).
  rewrite Forall_forall in Ha. by eapply Ha, list_elem_of_lookup_2.
Qed.

End Sidebar.

(** X19: the sidebar lists the five most recent conversations.  When
    the stored history parses, [loadHistory] shows at most five of its
    conversations, most recent first, and every conversation it leaves
    out is no more recent than any it shows. *)
Theorem sidebar_lists_five_most_recent
    (JSON_parse : string -> option (list Client.ChatHistory))
    (emptiesList : bool) (ls : gmap string string)
    (shownBefore : list Client.ChatHistory) (saved : string)
    (parsed : list Client.ChatHistory) :
  Client.getTruthy ls Client.STORAGE_KEY = Some saved ->
  JSON_parse saved = Some parsed ->
  length (Client.loadHistory JSON_parse emptiesList ls shownBefore)
  = Nat.min 5 (length parsed)
  /\ recentFirst (Client.loadHistory JSON_parse emptiesList ls shownBefore)
  /\ exists leftOut,
       Client.loadHistory JSON_parse emptiesList ls shownBefore ++ leftOut ≡ₚ parsed
       /\ forall x y,
            x ∈ Client.loadHistory JSON_parse emptiesList ls shownBefore ->
            y ∈ leftOut ->
            (Client.timestamp y <= Client.timestamp x)%Z.
Proof.
  intros Hs Hp. unfold Client.loadHistory. rewrite Hs, Hp.
  split; [|split].
  - rewrite length_take. by rewrite (Permutation_length (sortByRecency_perm parsed)).
  - apply recentFirst_take, sortByRecency_sorted.
  - exists (drop 5 (Client.sortByRecency parsed)). split.
    + rewrite take_drop. apply sortByRecency_perm.
    + apply recentFirst_app. rewrite take_drop. apply sortByRecency_sorted.
Qed.

Lemma sidebar_lists_five_most_recent_witness :
  length (Client.loadHistory (readingAs [oldChat]) true (storing "saved") [])
  = Nat.min 5 (length [oldChat]).
Proof.
  apply (proj1 (sidebar_lists_five_most_recent (readingAs [oldChat]) true
                  (storing "saved") [] "saved" [oldChat]
                  (storing_truthy "saved" eq_refl) eq_refl)).
Defined.

(** X20: [formatTimestamp] by age.  A timestamp less than a minute old,
    or in the future, reads [Just now]; then whole minutes from 1 to 59,
    whole hours from 1 to 23, whole days from 1 to 6; from seven days on
    it is the date. *)
Theorem format_timestamp_by_age
    (toLocaleDateString : Z -> string) (now timestamp : Z) :
  ((now - timestamp < 60000)%Z ->
   Client.formatTimestamp toLocaleDateString now timestamp = "Just now")
  /\ ((60000 <= now - timestamp < 3600000)%Z ->
      Client.formatTimestamp toLocaleDateString now timestamp
      = pretty ((now - timestamp) / 60000)%Z +:+ "m ago"
      /\ (1 <= (now - timestamp) / 60000 <= 59)%Z)
  /\ ((3600000 <= now - timestamp < 86400000)%Z ->
      Client.formatTimestamp toLocaleDateString now timestamp
      = pretty ((now - timestamp) / 3600000)%Z +:+ "h ago"
      /\ (1 <= (now - timestamp) / 3600000 <= 23)%Z)
  /\ ((86400000 <= now - timestamp < 604800000)%Z ->
      Client.formatTimestamp toLocaleDateString now timestamp
      = pretty ((now - timestamp) / 86400000)%Z +:+ "d ago"
      /\ (1 <= (now - timestamp) / 86400000 <= 6)%Z)
  /\ ((604800000 <= now - timestamp)%Z ->
      Client.formatTimestamp toLocaleDateString now timestamp
      = toLocaleDateString timestamp).
Proof.
  unfold Client.formatTimestamp. generalize (now - timestamp)%Z. intros diff.
  cbv zeta.
  assert (Hm : forall b : bool, b = (diff / 60000 <? 1)%Z ->
               (b = true <-> (diff < 60000)%Z)).
  { intros b ->. rewrite Z.ltb_lt. split; intros; Z.div_mod_to_equations; lia. }
  assert (Hm60 : ((diff / 60000 <? 60)%Z = true <-> (diff < 3600000)%Z)).
  { rewrite Z.ltb_lt. split; intros; Z.div_mod_to_equations; lia. }
  assert (Hh : ((diff / 3600000 <? 24)%Z = true <-> (diff < 86400000)%Z)).
  { rewrite Z.ltb_lt. split; intros; Z.div_mod_to_equations; lia. }
  assert (Hd : ((diff / 86400000 <? 7)%Z = true <-> (diff < 604800000)%Z)).
  { rewrite Z.ltb_lt. split; intros; Z.div_mod_to_equations; lia. }
  specialize (Hm _ eq_refl).
  destruct (diff / 60000 <? 1)%Z eqn:E1.
  { assert (diff < 60000)%Z by (by apply Hm). repeat split; intros; try lia; done. }
  assert (60000 <= diff)%Z by (destruct (Z.lt_ge_cases diff 60000); [|done];
                               exfalso; assert (false = true) by (by apply Hm); done).
  destruct (diff / 60000 <? 60)%Z eqn:E2.
  { assert (diff < 3600000)%Z by (by apply Hm60).
    repeat split; intros; try lia; try done; Z.div_mod_to_equations; lia. }
  assert (3600000 <= diff)%Z by (destruct (Z.lt_ge_cases diff 3600000); [|done];
                                 exfalso; assert (false = true) by (by apply Hm60); done).
  destruct (diff / 3600000 <? 24)%Z eqn:E3.
  { assert (diff < 86400000)%Z by (by apply Hh).
    repeat split; intros; try lia; try done; Z.div_mod_to_equations; lia. }
  assert (86400000 <= diff)%Z by (destruct (Z.lt_ge_cases diff 86400000); [|done];
                                  exfalso; assert (false = true) by (by apply Hh); done).
  destruct (diff / 86400000 <? 7)%Z eqn:E4.
  { assert (diff < 604800000)%Z by (by apply Hd).
    repeat split; intros; try lia; try done; Z.div_mod_to_equations; lia. }
  assert (604800000 <= diff)%Z by (destruct (Z.lt_ge_cases diff 604800000); [|done];
                                   exfalso; assert (false = true) by (by apply Hd); done).
  repeat split; intros; try lia; done.
Qed.

(** ** Titles *)

Section Titles.

Lemma substring_whole n s : String.length s <= n -> String.substring 0 n s = s.
Proof.
  revert n. induction s as [|c s IH]; intros [|n] Hn; cbn in *; try done; try lia.
  f_equal. apply IH. lia.
Qed.

Lemma length_substring n s :
  n <= String.length s -> String.length (String.substring 0 n s) = n.
Proof.
  revert n. induction s as [|c s IH]; intros [|n] Hn; cbn in *; try done; try lia.
  f_equal. apply IH. lia.
Qed.

Lemma nonEmpty_length s : Client.nonEmpty s = true <-> 0 < String.length s.
Proof.
  unfold Client.nonEmpty. destruct s; cbn; split; intros; try done; lia.
Qed.

Lemma isAscii_append s t : isAscii (s +:+ t) = isAscii s && isAscii t.
Proof.
  induction s as [|c s IH]; [done|].
  change (String c s +:+ t) with (String c (s +:+ t)).
  cbn [isAscii]. by rewrite IH, andb_assoc.
Qed.

Lemma isAscii_substring n s :
  isAscii s = true -> isAscii (String.substring 0 n s) = true.
Proof.
  revert n. induction s as [|c s IH]; intros [|n] H; cbn in *; try done.
  apply andb_true_iff in H as [Hc Hs]. rewrite Hc. cbn. by apply IH.
Qed.

Lemma find_first_user (before after : list Client.ChatMessage) u :
  Forall (fun m => Client.msg_role m <> "user") before ->
  Client.msg_role u = "user" ->
  List.find (fun m => String.eqb (Client.msg_role m) "user") (before ++ u :: after)
  = Some u.
Proof.
  intros Hb Hu. induction Hb as [|m before Hm _ IH]; cbn.
  - by rewrite Hu.
  - apply String.eqb_neq in Hm. by rewrite Hm.
Qed.

Lemma find_no_user (ms : list Client.ChatMessage) :
  Forall (fun m => Client.msg_role m <> "user") ms ->
  List.find (fun m => String.eqb (Client.msg_role m) "user") ms = None.
Proof.
  intros H. induction H as [|m ms Hm _ IH]; cbn; [done|].
  apply String.eqb_neq in Hm. by rewrite Hm.
Qed.

Lemma titleOf_cases (content : string) :
  (content = "" -> Client.titleOf content = "New Chat")
  /\ (content <> "" -> String.length content <= 40 ->
      Client.titleOf content = content)
  /\ (40 < String.length content ->
      Client.titleOf content = String.substring 0 40 content +:+ "...")
  /\ String.length (Client.titleOf content) <= 43
  /\ Client.titleOf content <> "".
Proof.
  assert (Hshort : content <> "" -> String.length content <= 40 ->
                   Client.titleOf content = content).
  { intros Hne Hlen. unfold Client.titleOf. cbv zeta.
    rewrite substring_whole by done.
    assert ((40 <? String.length content)%nat = false) as -> by (apply Nat.ltb_ge; lia).
    rewrite append_empty_r.
    assert (Client.nonEmpty content = true) as ->; [|done].
    unfold Client.nonEmpty. by apply negb_true_iff, String.eqb_neq. }
  assert (Hlong : 40 < String.length content ->
                  Client.titleOf content = String.substring 0 40 content +:+ "...").
  { intros Hlen. unfold Client.titleOf. cbv zeta.
    assert ((40 <? String.length content)%nat = true) as -> by (apply Nat.ltb_lt; lia).
    assert (Client.nonEmpty (String.substring 0 40 content +:+ "...") = true) as ->;
      [|done].
    apply nonEmpty_length. rewrite length_append. cbn. lia. }
  split; [by intros ->|]. split; [done|]. split; [done|].
  destruct (decide (content = "")) as [->|Hne].
  { change (Client.titleOf "") with "New Chat". split; [cbn; lia | done]. }
  destruct (Nat.le_gt_cases (String.length content) 40) as [Hle|Hgt].
  - rewrite Hshort by done. split; [lia | done].
  - rewrite Hlong by done. split.
    + rewrite length_append, length_substring by lia. cbn. lia.
    + intros H. apply (f_equal String.length) in H.
      rewrite length_append, length_substring in H by lia. cbn in H. lia.
Qed.

End Titles.

(** A conversation without a user message is filed as [New Chat]. *)
Lemma untitled_without_user_message
    (JSON_stringify : list Client.ChatHistory -> string)
    (now : Z) (ls : gmap string string) (st : Client.State) :
  Client.st_messages st <> [] ->
  Forall (fun m => Client.msg_role m <> "user") (Client.st_messages st) ->
  exists saved,
    List.find (fun c => String.eqb (Client.id c) (chatIdAt now st))
              (Client.chatHistory (Client.saveEffect JSON_stringify now ls st).1)
    = Some saved
    /\ Client.title saved = "New Chat".
Proof.
  intros Hne Hno. rewrite saveEffect_saved by done.
  exists (savedChat now st). split; [apply savedChat_found|].
  unfold savedChat. cbn [Client.title]. by rewrite find_no_user.
Qed.

(** X21: when the auto-save effect files a conversation whose first
    user message is ASCII text, the entry it puts in the history under
    the conversation's id holds the messages of the conversation and a
    title taken from that first user message: [New Chat] when its text
    is empty, the text itself when it has at most 40 characters, and
    its first 40 characters followed by three dots when it is longer.
    The title is ASCII text of at least one and at most 43
    characters. *)
Theorem title_of_conversation
    (JSON_stringify : list Client.ChatHistory -> string)
    (now : Z) (ls : gmap string string) (st : Client.State)
    (before after : list Client.ChatMessage) (u : Client.ChatMessage) :
  Client.st_messages st = before ++ u :: after ->
  Forall (fun m => Client.msg_role m <> "user") before ->
  Client.msg_role u = "user" ->
  isAscii (Client.msg_content u) = true ->
  exists saved,
    List.find (fun c => String.eqb (Client.id c) (chatIdAt now st))
              (Client.chatHistory (Client.saveEffect JSON_stringify now ls st).1)
    = Some saved
    /\ Client.messages saved = before ++ u :: after
    /\ (Client.msg_content u = "" -> Client.title saved = "New Chat")
    /\ (Client.msg_content u <> "" -> String.length (Client.msg_content u) <= 40 ->
        Client.title saved = Client.msg_content u)
    /\ (40 < String.length (Client.msg_content u) ->
        Client.title saved
        = String.substring 0 40 (Client.msg_content u) +:+ "...")
    /\ 0 < String.length (Client.title saved) <= 43
    /\ isAscii (Client.title saved) = true.
Proof.
  intros Hms Hbefore Hu Hascii.
  assert (Hne : Client.st_messages st <> []).
  { rewrite Hms. by destruct before. }
  rewrite saveEffect_saved by done.
  exists (savedChat now st). split; [apply savedChat_found|].
  unfold savedChat. cbn [Client.title Client.messages].
  rewrite Hms, find_first_user by done.
  destruct (titleOf_cases (Client.msg_content u)) as (He & Hs & Hl & Hlen & Hnon).
  split; [done|]. split; [done|]. split; [done|]. split; [done|]. split.
  - split; [|done]. destruct (Client.titleOf (Client.msg_content u)); [done|cbn; lia].
  - unfold Client.titleOf. cbv zeta.
    destruct (Client.nonEmpty _); [|done].
    rewrite isAscii_append, isAscii_substring by done.
    by destruct (40 <? String.length (Client.msg_content u))%nat.
Qed.

Lemma title_of_conversation_witness :
  exists saved,
    List.find (fun c => String.eqb (Client.id c) (chatIdAt 5 chatting))
              (Client.chatHistory (Client.saveEffect (writingAs "[]") 5 ∅ chatting).1)
    = Some saved
    /\ Client.messages saved
       = [] ++ {| Client.msg_id := "user-1"; Client.msg_role := "user";
                  Client.msg_content := "Hi" |} :: []
    /\ ("Hi" = "" -> Client.title saved = "New Chat")
    /\ ("Hi" <> "" -> String.length "Hi" <= 40 -> Client.title saved = "Hi")
    /\ (40 < String.length "Hi" ->
        Client.title saved = String.substring 0 40 "Hi" +:+ "...")
    /\ 0 < String.length (Client.title saved) <= 43
    /\ isAscii (Client.title saved) = true.
Proof.
  apply (title_of_conversation (writingAs "[]") 5 ∅ chatting [] []
           {| Client.msg_id := "user-1"; Client.msg_role := "user";
              Client.msg_content := "Hi" |});
    [reflexivity | constructor | reflexivity | reflexivity].
Defined.

(** A first user message of 41 characters is cut after the 40th. *)
Example long_first_message_is_cut :
  Client.title
  <$> Client.chatHistory
        (Client.saveEffect (writingAs "[]") 5 ∅
           {| Client.st_messages :=
                [{| Client.msg_id := "assistant-0"; Client.msg_role := "assistant";
                    Client.msg_content := "Welcome" |};
                 {| Client.msg_id := "user-1"; Client.msg_role := "user";
                    Client.msg_content := "Please summarise the attached report now." |};
                 {| Client.msg_id := "user-2"; Client.msg_role := "user";
                    Client.msg_content := "Thanks" |}];
              Client.currentChatId := None;
              Client.chatHistory := [];
              Client.isMobileMenuOpen := false |}).1
  = ["Please summarise the attached report now..."].
Proof. vm_compute. reflexivity. Qed.

(** ** Attaching files *)


(** ** The size shown in the too-large message *)

Section ShownSize.

Lemma toFixed1_4_5 (bytes : Z) :
  (4666164 <= bytes <= 4770969)%Z ->
  toFixed1 (inject_Z bytes / inject_Z (1024 * 1024)) = "4.5".
Proof.
  intros H. unfold toFixed1.
  assert (Hn : Qfloor (inject_Z bytes / inject_Z (1024 * 1024) * 10 + 0.5)%Q = 45%Z).
  { change (1024 * 1024)%Z with 1048576%Z.
    cbv [Qfloor Qplus Qmult Qdiv Qinv inject_Z Qnum Qden Z.sgn].
    change (Z.pos (1 * 1048576 * 1 * 10)) with 10485760%Z.
    change (Z.pos (1 * 1048576 * 1)) with 1048576%Z.
    change (Z.pos 10) with 10%Z.
    Z.div_mod_to_equations. lia. }
  rewrite Hn. reflexivity.
Qed.

Lemma just_over_payload_bytes : originalSizeBytes just_over_payload = 4718593%Z.
Proof.
  rewrite originalSizeBytes_eq. unfold base64Length, just_over_payload.
  rewrite strip_keeps_plain by reflexivity.
  change (String "A" (String "A" (pow2_copies 22 "A" +:+ pow2_copies 21 "A")))
    with ("AA" +:+ (pow2_copies 22 "A" +:+ pow2_copies 21 "A")).
  rewrite !js_length_app, !js_length_pow2_copies. reflexivity.
Qed.

End ShownSize.

(** X23: the size in the too-large message is rounded to one decimal,
    so a file just over the ceiling is turned down as a file of the
    ceiling's own size: for a decoded size over 4718592 and up to
    4770969 bytes the message reads [File too large (4.5MB). Maximum
    size is 4.5MB.] *)
Theorem just_over_ceiling_reads_4_5 (b t : string) :
  startsWith t "video/" = false ->
  (4718592 < originalSizeBytes b <= 4770969)%Z ->
  checkFileSize b t
  = {| valid := false;
       error := Some "File too large (4.5MB). Maximum size is 4.5MB." |}.
Proof.
  intros Hv [Hlo Hhi]. unfold checkFileSize. rewrite Hv.
  assert (Hbig : (4.5 < originalSizeMB b)%Q) by (by apply exceeds_ceiling_bytes).
  apply exceeds_ceiling_test in Hbig. rewrite Hbig.
  unfold too_large_error, originalSizeMB. rewrite toFixed1_4_5 by lia. reflexivity.
Qed.

Lemma just_over_ceiling_reads_4_5_witness :
  checkFileSize just_over_payload "image/png"
  = {| valid := false;
       error := Some "File too large (4.5MB). Maximum size is 4.5MB." |}.
Proof.
  apply (just_over_ceiling_reads_4_5 just_over_payload "image/png" eq_refl).
  rewrite just_over_payload_bytes. lia.
Defined.

Global Opaque just_over_payload.
